(** * CNewtonUpdateOnSubspace: Newton update restricted to a subspace

    A functional model of [Common/include/toolboxes/CNewtonUpdateOnSubspace.hpp].

    The class template is parameterised by its scalar type; every operation
    below is written against the interface [ScalarOps], and [double_ops]
    instantiates it with IEEE binary64, the type the Eigen members of the
    class are fixed to ([Eigen::VectorXd], [Eigen::MatrixXd]). A second
    instance, [rational_ops], runs the same operations in exact arithmetic,
    for the one relation that holds there and not in doubles.

    Operations that index containers or combine Eigen expressions can leave
    the defined behaviour of the language (indexing past the end, sizes that
    disagree); they return an [outcome] that names the first such event.

    [Index] is an unsigned integer; it is modelled by [nat]. The only
    subtraction that can pass below zero on an object sized by [resize] is
    the [iSample--] of [compute], which is modelled together with the
    [++iSample] that follows it. Console output is left out. *)

From Stdlib Require Import Floats Ring.
From Stdlib Require QArith Qcanon Qcabs.
From stdpp Require Import base list.

(** ** Scalars *)

Class ScalarOps (Scalar : Type) := {
  s_zero : Scalar;
  s_one : Scalar;
  s_tiny : Scalar;                 (* std::numeric_limits<Scalar>::min() *)
  s_add : Scalar → Scalar → Scalar;
  s_sub : Scalar → Scalar → Scalar;
  s_mul : Scalar → Scalar → Scalar;
  s_div : Scalar → Scalar → Scalar;
  s_neg : Scalar → Scalar;
  s_abs : Scalar → Scalar;
  s_sqrt : Scalar → Scalar;
  s_gt : Scalar → Scalar → bool;        (* a > b  *)
  s_le : Scalar → Scalar → bool;        (* a <= b *)
  s_ne : Scalar → Scalar → bool         (* a != b *)
}.

(** IEEE binary64. A comparison with a NaN operand is false, except [!=]
    which is true. *)
#[export] Instance double_ops : ScalarOps float := {|
  s_zero := 0%float;
  s_one := 1%float;
  s_tiny := 0x1p-1022%float;
  s_add := PrimFloat.add;
  s_sub := PrimFloat.sub;
  s_mul := PrimFloat.mul;
  s_div := PrimFloat.div;
  s_neg := PrimFloat.opp;
  s_abs := PrimFloat.abs;
  s_sqrt := PrimFloat.sqrt;
  s_gt := λ a b, PrimFloat.ltb b a;
  s_le := λ a b, PrimFloat.leb a b;
  s_ne := λ a b, negb (PrimFloat.eqb a b)
|}.

(** Scalars with exact arithmetic: the operations obey the laws of a field,
    and the magnitude of zero lies below the magnitude of every other
    scalar. IEEE doubles are not of this kind. *)
Class ExactField {Scalar : Type} (ops : ScalarOps Scalar) : Prop := {
  ef_add_zero : ∀ x, s_add s_zero x = x;
  ef_add_comm : ∀ x y, s_add x y = s_add y x;
  ef_add_assoc : ∀ x y z, s_add x (s_add y z) = s_add (s_add x y) z;
  ef_mul_one : ∀ x, s_mul s_one x = x;
  ef_mul_comm : ∀ x y, s_mul x y = s_mul y x;
  ef_mul_assoc : ∀ x y z, s_mul x (s_mul y z) = s_mul (s_mul x y) z;
  ef_distr : ∀ x y z, s_mul (s_add x y) z = s_add (s_mul x z) (s_mul y z);
  ef_sub : ∀ x y, s_sub x y = s_add x (s_neg y);
  ef_add_neg : ∀ x, s_add x (s_neg x) = s_zero;
  ef_div : ∀ x y, s_div x y = s_mul x (s_div s_one y);
  ef_div_same : ∀ x, x ≠ s_zero → s_mul x (s_div s_one x) = s_one;
  ef_one_ne_zero : s_one ≠ s_zero;
  ef_abs_zero : ∀ y, s_gt (s_abs s_zero) (s_abs y) = false;
  ef_abs_pos : ∀ x, s_gt (s_abs x) (s_abs s_zero) = false → x = s_zero
}.

(** ** Outcomes *)

Inductive fault :=
| InvalidParameters                 (* SU2_MPI::Error in resize *)
| VectorIndex (i n : nat)           (* std::vector operator[] at i, size n *)
| DataIndex (i n : nat)             (* data()[i] on storage of n entries *)
| DiagonalIndex (i n : nat)         (* Eigen diagonal coefficient i, length n *)
| ShapeMismatch.                    (* sizes of an Eigen expression disagree *)

Inductive outcome (A : Type) :=
| Done (a : A)
| Fault (f : fault).

Arguments Done {A} a.
Arguments Fault {A} f.

Definition and_then {A B} (m : outcome A) (k : A → outcome B) : outcome B :=
  match m with
  | Done a => k a
  | Fault f => Fault f
  end.

Notation "'let*' x ':=' m 'in' k" := (and_then m (λ x, k))
  (at level 10, x pattern, m at level 100, k at level 200).

Definition require (b : bool) (f : fault) : outcome unit :=
  if b then Done tt else Fault f.

(** [v[i]] on a [std::vector]. *)
Definition at_index {A} (v : list A) (i : nat) : outcome A :=
  match v !! i with
  | Some a => Done a
  | None => Fault (VectorIndex i (length v))
  end.

(** [std::swap(v[i], v[j])]. *)
Definition swap_slots {A} (i j : nat) (v : list A) : outcome (list A) :=
  let* a := at_index v i in
  let* b := at_index v j in
  Done (<[j:=a]> (<[i:=b]> v)).

(** [buf.data()[i]]. *)
Definition data_at {A} (buf : list A) (i : nat) : outcome A :=
  match buf !! i with
  | Some a => Done a
  | None => Fault (DataIndex i (length buf))
  end.

(** A run of [k ∈ ks] iterations threading the loop state. *)
Fixpoint for_each {A St} (ks : list A) (body : A → St → outcome St) (st : St)
  : outcome St :=
  match ks with
  | [] => Done st
  | k :: ks' => let* st' := body k st in for_each ks' body st'
  end.

Section Model.

Context {Scalar : Type} {ops : ScalarOps Scalar}.

(** ** Flat solution buffers ([su2matrix<Scalar>], seen through [data()]) *)

(** [for (i = 0; i < n; ++i) dst.data()[i] = f(a.data()[i], b.data()[i])];
    [dst] may be the storage of [a] or of [b]. *)
Definition data_loop (f : Scalar → Scalar → Scalar) (n : nat) (dst a b : list Scalar)
  : outcome (list Scalar) :=
  for_each (seq 0 n)
    (λ i d, let* x := data_at a i in
            let* y := data_at b i in
            let* _ := data_at d i in
            Done (<[i:=f x y]> d))
    dst.

(** [for (i = 0; i < buf.size(); ++i) buf.data()[i] = c], and [buf = Scalar(c)]. *)
Definition fill (c : Scalar) (buf : list Scalar) : list Scalar := replicate (length buf) c.

(** ** Eigen vectors and matrices

    A dynamic column-major matrix ([Eigen::MatrixXd]): its row count and its
    columns. A vector ([Eigen::VectorXd], or a [Map] over a buffer) is the
    list of its entries. *)

Record Matrix := { mrows : nat; mcolumns : list (list Scalar) }.

Definition mcols (M : Matrix) : nat := length (mcolumns M).

(** [M.resize(r, c)]: storage whose entries are indeterminate (the argument
    [junk]); every caller below writes all of it before reading. *)
Definition mat_resize (junk : Scalar) (r c : nat) : Matrix :=
  {| mrows := r; mcolumns := replicate c (replicate r junk) |}.

(** Modelled from the spec: dot products and vector arithmetic are provided
    by the consumed dense linear algebra library (Eigen), which is not under
    src/. Sums accumulate from the left, starting at zero; operands of
    different sizes are excluded by the callers. *)
Definition dot (a b : list Scalar) : Scalar :=
  foldl (λ acc xy, s_add acc (s_mul xy.1 xy.2)) s_zero (zip a b).

Definition vec_add (a b : list Scalar) : list Scalar := zip_with s_add a b.
Definition vec_sub (a b : list Scalar) : list Scalar := zip_with s_sub a b.
Definition vec_scale (c : Scalar) (a : list Scalar) : list Scalar := map (s_mul c) a.

(** [M.transpose() * v] *)
Definition mat_T_vec (M : Matrix) (v : list Scalar) : list Scalar :=
  map (λ c, dot c v) (mcolumns M).

(** [M * v], accumulated column by column into a zeroed destination. *)
Definition mat_vec (M : Matrix) (v : list Scalar) : list Scalar :=
  foldl (λ acc cx, vec_add acc (vec_scale cx.2 cx.1))
        (replicate (mrows M) s_zero) (zip (mcolumns M) v).

Definition mat_mul (A B : Matrix) : Matrix :=
  {| mrows := mrows A; mcolumns := map (mat_vec A) (mcolumns B) |}.

Definition unit_vector (n j : nat) : list Scalar :=
  map (λ i, if decide (i = j) then s_one else s_zero) (seq 0 n).

(** [M.setIdentity()] on an [n × n] matrix. *)
Definition mat_identity (n : nat) : Matrix :=
  {| mrows := n; mcolumns := map (unit_vector n) (seq 0 n) |}.

Definition mat_sub (A B : Matrix) : Matrix :=
  {| mrows := mrows A; mcolumns := zip_with vec_sub (mcolumns A) (mcolumns B) |}.

(** Modelled from the spec: [v.normalize()] of the consumed library, as in
    Eigen 3.3: divide by the norm when the squared norm is positive,
    otherwise leave the vector as it is. *)
Definition normalize (v : list Scalar) : list Scalar :=
  let z := dot v v in
  if s_gt z s_zero then map (λ x, s_div x (s_sqrt z)) v else v.

(** [M.col(i)] *)
Definition column_at (M : Matrix) (i : nat) : outcome (list Scalar) :=
  match mcolumns M !! i with
  | Some c => Done c
  | None => Fault ShapeMismatch
  end.

(** [Eigen::VectorXd::Map(buf.data(), n)] read as a value. *)
Definition map_view (buf : list Scalar) (n : nat) : outcome (list Scalar) :=
  let* _ := require (n <=? length buf) (DataIndex (length buf) (length buf)) in
  Done (take n buf).

(** Assignment of [v] through [Eigen::Map<VectorXd>(buf.data(), n)]: the
    view has [n] entries, the storage behind it keeps its size. *)
Definition write_view (buf : list Scalar) (n : nat) (v : list Scalar)
  : list Scalar :=
  take n v ++ drop (length (take n v)) buf.

(** ** The consumed libraries *)

(** Modelled from the spec: the orthogonal factorisation, with its diagonal
    and its orthogonal factor, and the dense inverse are provided by the
    consumed dense linear algebra library (Eigen), which is not under src/.
    They are parameters of the model; the class only fixes how they are
    called. *)
Class DenseLibrary := {
  (* QR.compute(M); QR.matrixQR().diagonal() *)
  qr_diagonal : Matrix → list Scalar;
  (* QR.compute(M); QR.householderQ() * v *)
  qr_Q_times : Matrix → list Scalar → list Scalar;
  (* M.inverse() *)
  mat_inverse : Matrix → Matrix
}.

(** The diagonal of an [r × c] factor has [min r c] coefficients. *)
Class DenseLibraryShape (lib : DenseLibrary) : Prop := {
  qr_diagonal_length : ∀ M, length (qr_diagonal M) = mrows M `min` mcols M
}.

(** A square matrix: as many columns as rows, every column whole. *)
Definition square (M : Matrix) : Prop :=
  mcols M = mrows M ∧ Forall (λ c, length c = mrows M) (mcolumns M).

(** A matrix is invertible when a square matrix of its size multiplies it,
    from the left, to the identity. *)
Definition invertible (M : Matrix) : Prop :=
  ∃ B, square B ∧ mrows B = mrows M ∧ mat_mul B M = mat_identity (mrows M).

(** Modelled from the spec: in exact arithmetic the dense inverse of the
    consumed library returns the inverse of every invertible square
    matrix. Rounding arithmetic does not meet this. *)
Class DenseInverseExact (lib : DenseLibrary) : Prop := {
  mat_inverse_exact :
    ∀ M, square M → invertible M →
         mat_mul (mat_inverse M) M = mat_identity (mrows M)
}.

(** Modelled from the spec: the differentiation oracle is consumed and not
    under src/. One pass is [AD::ClearAdjoints()], then
    [AD::SetDerivative(i, v)] for each seed in order, then
    [AD::ComputeAdjoint()]; the result is what [AD::GetDerivative] returns
    at an index. *)
Class AdjointOracle := {
  adjoint_pass : list (Z * Scalar) → Z → Scalar
}.

Context {lib : DenseLibrary} {tape : AdjointOracle}.

(** The indeterminate content of storage that was allocated and not yet
    written. *)
Variable junk : Scalar.

(** ** The object *)

Record CNewtonUpdateOnSubspace := {
  (* inherited from CQuasiNewtonInvLeastSquares *)
  iSample : nat;
  nPtDomain : nat;
  work : list Scalar;
  X : list (list Scalar);
  R : list (list Scalar);
  (* declared by this class *)
  work2 : list Scalar;
  p : list Scalar;
  p_R : list Scalar;
  pn_R : list Scalar;
  EigenX : Matrix;
  EigenR : Matrix;
  DR : Matrix;
  ProjectedJacobian : Matrix;
  NewtonInverseMatrix : Matrix;
  iBasis : nat;
  BasisSize_n : nat
}.

(** Default construction: no allocation, [iBasis = BasisSize_n = 0]. *)
Definition default_object : CNewtonUpdateOnSubspace :=
  {| iSample := 0; nPtDomain := 0; work := []; X := []; R := [];
     work2 := []; p := []; p_R := []; pn_R := [];
     EigenX := {| mrows := 0; mcolumns := [] |};
     EigenR := {| mrows := 0; mcolumns := [] |};
     DR := {| mrows := 0; mcolumns := [] |};
     ProjectedJacobian := {| mrows := 0; mcolumns := [] |};
     NewtonInverseMatrix := {| mrows := 0; mcolumns := [] |};
     iBasis := 0; BasisSize_n := 0 |}.

(** Modelled from the spec: [FPresult()] belongs to the base class
    CQuasiNewtonInvLeastSquares, which is not part of this file; it is the
    accessor of the buffer [work], through which the outer solver stores the
    raw iterate before [compute] and reads the corrected one after it. *)
Definition FPresult (s : CNewtonUpdateOnSubspace) : list Scalar := work s.

(** Modelled from the spec: the outer solver writing a new raw iterate
    through the reference returned by [FPresult()]. *)
Definition store_FPresult (s : CNewtonUpdateOnSubspace) (v : list Scalar)
  : CNewtonUpdateOnSubspace :=
  {| iSample := iSample s; nPtDomain := nPtDomain s; work := v; X := X s;
     R := R s; work2 := work2 s; p := p s; p_R := p_R s; pn_R := pn_R s;
     EigenX := EigenX s; EigenR := EigenR s; DR := DR s;
     ProjectedJacobian := ProjectedJacobian s;
     NewtonInverseMatrix := NewtonInverseMatrix s;
     iBasis := iBasis s; BasisSize_n := BasisSize_n s |}.

(** *** shiftHistoryLeft *)

Definition shiftHistoryLeft (history : list (list Scalar)) : outcome (list (list Scalar)) :=
  for_each (seq 1 (length history - 1))
           (λ i h, swap_slots (i - 1) i h) history.

(** *** resize

    The members [p_R], [pn_R], [ProjectedJacobian],
    [NewtonInverseMatrix] and [BasisSize_n] are not touched. *)
Definition assign_scalar (v : list (list Scalar)) (i : nat) (c : Scalar)
  : outcome (list (list Scalar)) :=
  let* b := at_index v i in Done (<[i:=fill c b]> v).

Definition resize (s : CNewtonUpdateOnSubspace)
    (nsample nbasis npt nvar nptdomain : nat) : outcome CNewtonUpdateOnSubspace :=
  let* _ := require (negb ((npt <? nptdomain) || (nsample <? 2))) InvalidParameters in
  let fresh := replicate (npt * nvar) junk in
  let* X1 := assign_scalar (replicate nsample fresh) 0 s_zero in
  let* R1 := assign_scalar (replicate nbasis fresh) 0 s_zero in
  Done {| iSample := 0;
          nPtDomain := if decide (nptdomain = 0) then npt else nptdomain;
          work := fresh; X := X1; R := R1; work2 := fresh; p := fresh;
          p_R := p_R s; pn_R := pn_R s;
          EigenX := mat_resize junk (npt * nvar) nsample;
          EigenR := mat_resize junk (npt * nvar) 1;
          DR := mat_resize junk (npt * nvar) 1;
          ProjectedJacobian := ProjectedJacobian s;
          NewtonInverseMatrix := NewtonInverseMatrix s;
          iBasis := 0; BasisSize_n := BasisSize_n s |}.

(** *** size *)
Definition size (s : CNewtonUpdateOnSubspace) : nat := length (R s).

(** *** reset *)
Definition reset (s : CNewtonUpdateOnSubspace) : outcome CNewtonUpdateOnSubspace :=
  let* X1 := swap_slots 0 (iSample s) (X s) in
  Done {| iSample := 0; nPtDomain := nPtDomain s; work := work s; X := X1;
          R := R s; work2 := work2 s; p := p s; p_R := p_R s; pn_R := pn_R s;
          EigenX := EigenX s; EigenR := EigenR s; DR := DR s;
          ProjectedJacobian := ProjectedJacobian s;
          NewtonInverseMatrix := NewtonInverseMatrix s;
          iBasis := 0; BasisSize_n := BasisSize_n s |}.


(** *** projectOntoSubspace *)
Definition projectOntoSubspace (s : CNewtonUpdateOnSubspace)
  : outcome CNewtonUpdateOnSubspace :=
  let pn := p_R s in
  let* _ := require (mrows (EigenR s) =? length (work s)) ShapeMismatch in
  let xi := mat_T_vec (EigenR s) (work s) in
  let* _ := require (mrows (EigenR s) =? length (p s)) ShapeMismatch in
  Done {| iSample := iSample s; nPtDomain := nPtDomain s; work := work s;
          X := X s; R := R s; work2 := work2 s;
          p := mat_vec (EigenR s) xi; p_R := xi; pn_R := pn;
          EigenX := EigenX s; EigenR := EigenR s; DR := DR s;
          ProjectedJacobian := ProjectedJacobian s;
          NewtonInverseMatrix := NewtonInverseMatrix s;
          iBasis := iBasis s; BasisSize_n := BasisSize_n s |}.

(** *** updateProjectedSolution *)
Definition updateProjectedSolution (s : CNewtonUpdateOnSubspace)
  : outcome CNewtonUpdateOnSubspace :=
  let grown := BasisSize_n s <? mcols (EigenR s) in
  let pn := if grown then p_R s else pn_R s in
  let size_n := if grown then mcols (EigenR s) else BasisSize_n s in
  let* _ := require (length (p_R s) =? length pn) ShapeMismatch in
  let step := vec_sub (p_R s) pn in
  let* _ := require (mcols (NewtonInverseMatrix s) =? length step) ShapeMismatch in
  let* _ := require (length pn =? mrows (NewtonInverseMatrix s)) ShapeMismatch in
  let xi := vec_add pn (mat_vec (NewtonInverseMatrix s) step) in
  let* _ := require (mcols (EigenR s) =? length xi) ShapeMismatch in
  let* _ := require (mrows (EigenR s) =? length (p s)) ShapeMismatch in
  Done {| iSample := iSample s; nPtDomain := nPtDomain s; work := work s;
          X := X s; R := R s; work2 := work2 s;
          p := mat_vec (EigenR s) xi; p_R := xi; pn_R := pn;
          EigenX := EigenX s; EigenR := EigenR s; DR := DR s;
          ProjectedJacobian := ProjectedJacobian s;
          NewtonInverseMatrix := NewtonInverseMatrix s;
          iBasis := iBasis s; BasisSize_n := size_n |}.

(** *** checkBasis *)

(** [for (i = 0; i < count; ++i) M.col(i) = VectorXd::Map(bufs[i].data(), bufs[0].size())] *)
Definition load_columns (M : Matrix) (bufs : list (list Scalar)) (count : nat)
  : outcome Matrix :=
  for_each (seq 0 count)
    (λ i M',
       let* b := at_index bufs i in
       let* b0 := at_index bufs 0 in
       let* v := map_view b (length b0) in
       let* _ := require ((i <? mcols M') && (mrows M' =? length v)) ShapeMismatch in
       Done {| mrows := mrows M'; mcolumns := <[i:=v]> (mcolumns M') |})
    M.

Definition diag_at (Rdiag : list Scalar) (i : nat) : outcome Scalar :=
  match Rdiag !! i with
  | Some d => Done d
  | None => Fault (DiagonalIndex i (length Rdiag))
  end.

(** The vector [Krylov_Criterion_Quotients]: [n] value-initialised entries,
    then the guarded divisions. *)
Definition krylov_quotients (Rdiag : list Scalar) (n : nat) : outcome (list Scalar) :=
  for_each (seq 0 n)
    (λ i q,
       let* d1 := diag_at Rdiag (i + 1) in
       if s_ne d1 s_zero
       then let* d0 := diag_at Rdiag i in Done (<[i:=s_div d0 d1]> q)
       else Done q)
    (replicate n s_zero).

(** What slot [i] of [Krylov_Criterion_Quotients] holds once the loop has
    passed it: the quotient when the divisor differs from zero, and the
    initial zero otherwise. *)
Definition quotient_at (Rdiag : list Scalar) (i : nat) : Scalar :=
  match Rdiag !! (i + 1), Rdiag !! i with
  | Some d1, Some d0 => if s_ne d1 s_zero then s_div d0 d1 else s_zero
  | _, _ => s_zero
  end.

(** The acceptance test on the first quotient. *)
Definition criterion_met (q0 KrylovCriterionValue : Scalar) : bool :=
  s_gt (s_abs q0) KrylovCriterionValue && negb (s_ne (s_abs q0) (s_abs q0)).

(** The sweep over the preceding basis vectors; both operands are views of
    [n] entries. *)
Definition orthogonalize (basis : list (list Scalar)) (n count : nat) (v : list Scalar)
  : outcome (list Scalar) :=
  for_each (seq 0 count)
    (λ i v',
       let* b := at_index basis i in
       let* prec := map_view b n in
       Done (vec_sub v' (vec_scale (dot v' prec) prec)))
    v.

Definition checkBasis (s : CNewtonUpdateOnSubspace) (KrylovCriterionValue : Scalar)
  : outcome (bool * CNewtonUpdateOnSubspace) :=
  if iSample s + 1 <? length (X s) then Done (false, s) else
  if iBasis s <? length (R s) then
    let* EX := load_columns (EigenX s) (X s) (length (X s)) in
    let Rdiag := qr_diagonal EX in
    let* quotients := krylov_quotients Rdiag (length (X s) - 1) in
    let* q0 := at_index quotients 0 in
    if criterion_met q0 KrylovCriterionValue then
      let iB := iBasis s + 1 in
      let* slot := at_index (R s) (iB - 1) in
      let* r0 := at_index (R s) 0 in
      let n := length r0 in
      let* _ := map_view slot n in
      let* _ := require (mrows EX =? n) ShapeMismatch in
      let q := qr_Q_times EX (unit_vector n 0) in
      let* v := orthogonalize (R s) n (iB - 1) q in
      let R1 := <[iB - 1 := write_view slot n (normalize v)]> (R s) in
      let* ER := load_columns (mat_resize junk (mrows (EigenR s)) iB) R1 iB in
      Done (true,
            {| iSample := iSample s; nPtDomain := nPtDomain s; work := work s;
               X := X s; R := R1; work2 := work2 s; p := p s; p_R := p_R s;
               pn_R := pn_R s; EigenX := EX; EigenR := ER; DR := DR s;
               ProjectedJacobian := ProjectedJacobian s;
               NewtonInverseMatrix := NewtonInverseMatrix s;
               iBasis := iB; BasisSize_n := BasisSize_n s |})
    else
      Done (false,
            {| iSample := iSample s; nPtDomain := nPtDomain s; work := work s;
               X := X s; R := R s; work2 := work2 s; p := p s; p_R := p_R s;
               pn_R := pn_R s; EigenX := EX; EigenR := EigenR s; DR := DR s;
               ProjectedJacobian := ProjectedJacobian s;
               NewtonInverseMatrix := NewtonInverseMatrix s;
               iBasis := iBasis s; BasisSize_n := BasisSize_n s |})
  else Done (false, s).

(** *** computeProjectedJacobian *)

Fixpoint collect {A B} (f : A → outcome B) (l : list A) : outcome (list B) :=
  match l with
  | [] => Done []
  | a :: l' => let* b := f a in let* bs := collect f l' in Done (b :: bs)
  end.

(** The seeds of one adjoint pass: [(OutputIndices.data()[it], R[j].data()[it])]
    for [it < R[j].size()]. *)
Definition seeds_of (OutputIndices : list Z) (Rj : list Scalar) : outcome (list (Z * Scalar)) :=
  collect (λ it, let* o := data_at OutputIndices it in
                 let* r := data_at Rj it in Done (o, r))
          (seq 0 (length Rj)).

(** [DR.col(j)(it) = AD::GetDerivative(InputIndices.data()[it])] for
    [it < R[j].size()], after the pass seeded with [R[j]]. *)
Definition derivative_column (InputIndices : list Z) (seeds : list (Z * Scalar))
    (Rj : list Scalar) : outcome (list Scalar) :=
  collect (λ it, let* i := data_at InputIndices it in Done (adjoint_pass seeds i))
          (seq 0 (length Rj)).

(** [ProjectedJacobian(i,j) = EigenR.col(i).transpose() * DR.col(j)] for
    [i < iBasis]. *)
Definition jacobian_column (ER : Matrix) (count : nat) (dr : list Scalar)
  : outcome (list Scalar) :=
  collect (λ i, let* c := column_at ER i in
                let* _ := require (length c =? length dr) ShapeMismatch in
                Done (dot c dr))
          (seq 0 count).

(** One turn of the loop over [j]: the new columns [j] of [DR] and of
    [ProjectedJacobian]. *)
Definition jacobian_turn (s : CNewtonUpdateOnSubspace)
    (InputIndices OutputIndices : list Z) (j : nat) : outcome (list Scalar * list Scalar) :=
  let* Rj := at_index (R s) j in
  let* seeds := seeds_of OutputIndices Rj in
  let* d := derivative_column InputIndices seeds Rj in
  let* _ := require (length d <=? mrows (DR s)) ShapeMismatch in
  let dr := write_view (replicate (mrows (DR s)) junk) (length d) d in
  let* pj := jacobian_column (EigenR s) (iBasis s) dr in
  Done (dr, pj).

Definition computeProjectedJacobian (s : CNewtonUpdateOnSubspace)
    (iZone : nat) (InputIndices OutputIndices : list Z)
  : outcome CNewtonUpdateOnSubspace :=
  let* turns := collect (jacobian_turn s InputIndices OutputIndices)
                        (seq 0 (iBasis s)) in
  let DR1 := {| mrows := mrows (DR s); mcolumns := turns.*1 |} in
  let PJ := {| mrows := iBasis s; mcolumns := turns.*2 |} in
  let PJ1 := mat_sub (mat_identity (iBasis s)) PJ in
  Done {| iSample := iSample s; nPtDomain := nPtDomain s; work := work s;
          X := X s; R := R s; work2 := work2 s; p := p s; p_R := p_R s;
          pn_R := pn_R s; EigenX := EigenX s; EigenR := EigenR s; DR := DR1;
          ProjectedJacobian := PJ1;
          NewtonInverseMatrix := mat_inverse PJ1;
          iBasis := iBasis s; BasisSize_n := BasisSize_n s |}.

(** *** compute *)

(** Lines 269-280: take the projection out of [work], or clear [p]. *)
Definition remove_projection (s : CNewtonUpdateOnSubspace)
  : outcome CNewtonUpdateOnSubspace :=
  if 0 <? iBasis s then
    let* s1 := projectOntoSubspace s in
    let* w := data_loop s_sub (length (work s1)) (work s1) (work s1) (p s1) in
    Done {| iSample := iSample s1; nPtDomain := nPtDomain s1; work := w;
            X := X s1; R := R s1; work2 := work2 s1; p := p s1; p_R := p_R s1;
            pn_R := pn_R s1; EigenX := EigenX s1; EigenR := EigenR s1;
            DR := DR s1; ProjectedJacobian := ProjectedJacobian s1;
            NewtonInverseMatrix := NewtonInverseMatrix s1;
            iBasis := iBasis s1; BasisSize_n := BasisSize_n s1 |}
  else
    Done {| iSample := iSample s; nPtDomain := nPtDomain s; work := work s;
            X := X s; R := R s; work2 := work2 s; p := fill s_zero (p s);
            p_R := p_R s; pn_R := pn_R s; EigenX := EigenX s;
            EigenR := EigenR s; DR := DR s;
            ProjectedJacobian := ProjectedJacobian s;
            NewtonInverseMatrix := NewtonInverseMatrix s;
            iBasis := iBasis s; BasisSize_n := BasisSize_n s |}.

(** Lines 285-288 and 293 on the window alone: make room when it is full,
    then swap the delta into the next slot. Returns the window, the sample
    index and the storage that was swapped out. On a full window the
    unsigned [iSample--] and the later [++iSample] cancel, also at zero, so
    the slot is [iSample] again; otherwise it is [iSample + 1]. *)
Definition insert_delta (history : list (list Scalar)) (sample : nat) (delta : list Scalar)
  : outcome (list (list Scalar) * nat * list Scalar) :=
  let* hi := (if decide (sample + 1 = length history)
              then let* h := shiftHistoryLeft history in Done (h, sample)
              else Done (history, sample + 1)) in
  let* old := at_index hi.1 hi.2 in
  Done (<[hi.2:=delta]> hi.1, hi.2, old).

(** The delta of line 291: [work - work2], left in the storage of [work2]. *)
Definition delta_of (s : CNewtonUpdateOnSubspace) : outcome (list Scalar) :=
  data_loop s_sub (length (work s)) (work2 s) (work s) (work2 s).

(** Lines 285-294. *)
Definition push_delta (s : CNewtonUpdateOnSubspace)
  : outcome CNewtonUpdateOnSubspace :=
  let* hi := (if decide (iSample s + 1 = length (X s))
              then let* h := shiftHistoryLeft (X s) in Done (h, iSample s)
              else Done (X s, iSample s + 1)) in
  let* delta := delta_of s in
  let* old := at_index hi.1 hi.2 in
  Done {| iSample := hi.2; nPtDomain := nPtDomain s; work := old;
          X := <[hi.2:=delta]> hi.1; R := R s; work2 := work s; p := p s;
          p_R := p_R s; pn_R := pn_R s; EigenX := EigenX s;
          EigenR := EigenR s; DR := DR s;
          ProjectedJacobian := ProjectedJacobian s;
          NewtonInverseMatrix := NewtonInverseMatrix s;
          iBasis := iBasis s; BasisSize_n := BasisSize_n s |}.

(** Lines 297-304. *)
Definition add_correction (s : CNewtonUpdateOnSubspace)
  : outcome CNewtonUpdateOnSubspace :=
  let* s1 := (if 0 <? iBasis s then updateProjectedSolution s else Done s) in
  let* w := data_loop s_add (length (work s1)) (work s1) (work2 s1) (p s1) in
  Done {| iSample := iSample s1; nPtDomain := nPtDomain s1; work := w;
          X := X s1; R := R s1; work2 := work2 s1; p := p s1; p_R := p_R s1;
          pn_R := pn_R s1; EigenX := EigenX s1; EigenR := EigenR s1;
          DR := DR s1; ProjectedJacobian := ProjectedJacobian s1;
          NewtonInverseMatrix := NewtonInverseMatrix s1;
          iBasis := iBasis s1; BasisSize_n := BasisSize_n s1 |}.

(** The object after the call; the returned reference is [FPresult()] of it. *)
Definition compute (s : CNewtonUpdateOnSubspace) : outcome CNewtonUpdateOnSubspace :=
  let* s1 := remove_projection s in
  let* s2 := push_delta s1 in
  add_correction s2.

(** ** Calls made by the outer solver *)

Inductive call :=
| CallStore (iterate : list Scalar)                       (* write through FPresult() *)
| CallCompute
| CallCheckBasis (KrylovCriterionValue : Scalar)
| CallComputeProjectedJacobian (iZone : nat) (InputIndices OutputIndices : list Z).

Definition perform (s : CNewtonUpdateOnSubspace) (c : call)
  : outcome CNewtonUpdateOnSubspace :=
  match c with
  | CallStore v => Done (store_FPresult s v)
  | CallCompute => compute s
  | CallCheckBasis k => let* r := checkBasis s k in Done r.2
  | CallComputeProjectedJacobian z i o => computeProjectedJacobian s z i o
  end.

Definition perform_all (s : CNewtonUpdateOnSubspace) (cs : list call)
  : outcome CNewtonUpdateOnSubspace :=
  for_each cs (λ c st, perform st c) s.

(** The outer solver feeding raw iterates, one [compute] each: the object
    at the end and, in order, the deltas that line 291 formed. *)
Fixpoint feed (s : CNewtonUpdateOnSubspace) (iterates : list (list Scalar))
  : outcome (CNewtonUpdateOnSubspace * list (list Scalar)) :=
  match iterates with
  | [] => Done (s, [])
  | v :: vs =>
      let s0 := store_FPresult s v in
      let* s1 := remove_projection s0 in
      let* delta := delta_of s1 in
      let* s' := compute s0 in
      let* r := feed s' vs in
      Done (r.1, delta :: r.2)
  end.

(** The window after a run of insertions. *)
Fixpoint insert_all (history : list (list Scalar)) (sample : nat)
    (deltas : list (list Scalar)) : outcome (list (list Scalar) * nat) :=
  match deltas with
  | [] => Done (history, sample)
  | d :: ds =>
      let* r := insert_delta history sample d in
      insert_all r.1.1 r.1.2 ds
  end.

(** The object with another local size. *)
Definition with_nPtDomain (n : nat) (s : CNewtonUpdateOnSubspace)
  : CNewtonUpdateOnSubspace :=
  {| iSample := iSample s; nPtDomain := n; work := work s; X := X s;
     R := R s; work2 := work2 s; p := p s; p_R := p_R s; pn_R := pn_R s;
     EigenX := EigenX s; EigenR := EigenR s; DR := DR s;
     ProjectedJacobian := ProjectedJacobian s;
     NewtonInverseMatrix := NewtonInverseMatrix s;
     iBasis := iBasis s; BasisSize_n := BasisSize_n s |}.

(** How many of the calls are [checkBasis]. *)
Fixpoint checkBasis_calls (cs : list call) : nat :=
  match cs with
  | [] => 0
  | CallCheckBasis _ :: cs' => S (checkBasis_calls cs')
  | _ :: cs' => checkBasis_calls cs'
  end.

(** ** Configured objects

    What [resize nsample nbasis npt nvar _] establishes and the other
    operations keep: every buffer holds [npt * nvar] entries. *)
Record configured (nsample nbasis npt nvar : nat) (s : CNewtonUpdateOnSubspace)
  : Prop := {
  cfg_nsample : 2 ≤ nsample;
  cfg_nbasis : 1 ≤ nbasis;
  cfg_X : length (X s) = nsample;
  cfg_X_each : Forall (λ b, length b = npt * nvar) (X s);
  cfg_R : length (R s) = nbasis;
  cfg_R_each : Forall (λ b, length b = npt * nvar) (R s);
  cfg_work : length (work s) = npt * nvar;
  cfg_work2 : length (work2 s) = npt * nvar;
  cfg_p : length (p s) = npt * nvar;
  cfg_iSample : iSample s < nsample;
  cfg_iBasis : iBasis s ≤ nbasis;
  cfg_EigenX_rows : mrows (EigenX s) = npt * nvar;
  cfg_EigenR_rows : mrows (EigenR s) = npt * nvar;
  cfg_EigenX_cols : mcols (EigenX s) = nsample
}.

End Model.

Arguments Matrix : clear implicits.
Arguments DenseLibrary : clear implicits.
Arguments AdjointOracle : clear implicits.
Arguments CNewtonUpdateOnSubspace : clear implicits.
Arguments call : clear implicits.

(** ** A reference dense library

    An executable instance of [DenseLibrary], used to evaluate the class on
    concrete objects. The factorisation follows the unblocked Householder
    scheme of Eigen's [HouseholderQR] (one reflector per column,
    [makeHouseholder] and [applyHouseholderOnTheLeft]); the inverse is a
    Gauss-Jordan elimination with partial pivoting. *)

Section Reference.

Context {Scalar : Type} {ops : ScalarOps Scalar}.

(** Modelled from the spec: the factorisation of the consumed library.
    The reflector of a column tail: [(beta, tau, essential)]. *)
Definition make_householder (x : list Scalar) : Scalar * Scalar * list Scalar :=
  match x with
  | [] => (s_zero, s_zero, [])
  | c0 :: tail =>
      let tailSqNorm := dot tail tail in
      if s_le tailSqNorm s_tiny then (c0, s_zero, map (λ _, s_zero) tail)
      else
        let norm := s_sqrt (s_add (s_mul c0 c0) tailSqNorm) in
        let beta := if s_le s_zero c0 then s_neg norm else norm in
        (beta, s_div (s_sub beta c0) beta,
         map (λ t, s_div t (s_sub c0 beta)) tail)
  end.

(** Modelled from the spec: one reflector of the consumed library applied
    on the left of a column. *)
Definition apply_householder (essential : list Scalar) (tau : Scalar)
    (y : list Scalar) : list Scalar :=
  match y with
  | [] => []
  | [y0] => [s_mul y0 (s_sub s_one tau)]
  | y0 :: bottom =>
      if s_ne tau s_zero then
        let tmp := s_add (dot essential bottom) y0 in
        s_sub y0 (s_mul tau tmp)
          :: zip_with (λ b e, s_sub b (s_mul (s_mul tau e) tmp)) bottom essential
      else y
  end.

Definition reflect_from (k : nat) (essential : list Scalar) (tau : Scalar) (y : list Scalar)
  : list Scalar :=
  take k y ++ apply_householder essential tau (drop k y).

(** Modelled from the spec: the factorisation loop of the consumed library.
    At most [n] reflectors, one per column, starting at row [k]. *)
Fixpoint householder_steps (n k : nat) (cols : list (list Scalar))
  : list (Scalar * Scalar * list Scalar) :=
  match n, cols with
  | S n', c :: rest =>
      let h := make_householder (drop k c) in
      h :: householder_steps n' (S k)
             (map (reflect_from k h.2 h.1.2) rest)
  | _, _ => []
  end.

(** Modelled from the spec: the orthogonal factor [H_0 H_1 ...] of the
    consumed library applied to a vector, last reflector first. *)
Fixpoint apply_Q (k : nat) (steps : list (Scalar * Scalar * list Scalar))
    (v : list Scalar) : list Scalar :=
  match steps with
  | [] => v
  | h :: rest => reflect_from k h.2 h.1.2 (apply_Q (S k) rest v)
  end.

Definition entry (rows : list (list Scalar)) (i j : nat) : Scalar :=
  default s_zero (rows !! i ≫= λ r, r !! j).

Definition transpose (n : nat) (cols : list (list Scalar)) : list (list Scalar) :=
  map (λ i, map (λ c, default s_zero (c !! i)) cols) (seq 0 n).

Definition pivot_row (k : nat) (rows : list (list Scalar)) : nat :=
  foldl (λ best i, if s_gt (s_abs (entry rows i k)) (s_abs (entry rows best k))
                   then i else best)
        k (seq (S k) (length rows - S k)).

Definition eliminate (rows : list (list Scalar)) (k : nat) : list (list Scalar) :=
  let pr := pivot_row k rows in
  let rk := default [] (rows !! pr) in
  let rows1 := <[pr:=default [] (rows !! k)]> (<[k:=rk]> rows) in
  let pivot := default s_zero (rk !! k) in
  let rk' := map (λ x, s_div x pivot) rk in
  imap (λ i row, if decide (i = k) then rk'
                 else zip_with (λ x y, s_sub x (s_mul (default s_zero (row !! k)) y))
                               row rk')
       rows1.

(** Modelled from the spec: the dense inverse of the consumed library, by
    elimination on [M | I] with partial pivoting. *)
Definition gauss_jordan_inverse (M : Matrix Scalar) : Matrix Scalar :=
  let n := mrows M in
  let augmented := zip_with app (transpose n (mcolumns M))
                                (transpose n (mcolumns (mat_identity n))) in
  let reduced := foldl eliminate augmented (seq 0 n) in
  {| mrows := n; mcolumns := transpose n (map (drop n) reduced) |}.

(** The rows [M | I] on which [gauss_jordan_inverse] starts. *)
Definition augmented (M : Matrix Scalar) : list (list Scalar) :=
  zip_with app (transpose (mrows M) (mcolumns M))
               (transpose (mrows M) (mcolumns (mat_identity (mrows M)))).

(** The sum [f 0 + ... + f (n - 1)], accumulated from the left as [dot]
    and [mat_vec] accumulate. *)
Fixpoint sum_to (n : nat) (f : nat → Scalar) : Scalar :=
  match n with
  | 0 => s_zero
  | S n' => s_add (sum_to n' f) (f n')
  end.

(** Modelled from the spec: an instance of the consumed dense library. *)
#[export] Instance reference_library : DenseLibrary Scalar := {|
  qr_diagonal M := (householder_steps (mrows M) 0 (mcolumns M)).*1.*1;
  qr_Q_times M v := apply_Q 0 (householder_steps (mrows M) 0 (mcolumns M)) v;
  mat_inverse := gauss_jordan_inverse
|}.

(** Modelled from the spec: an instance of the consumed differentiation
    oracle, for the map [u ↦ a·u] recorded with identical input and output
    indices: the derivative at an index is [a] times the seed last set
    there, and zero where none was set. *)
Definition last_seed (seeds : list (Z * Scalar)) (i : Z) : Scalar :=
  foldl (λ acc s, if decide (s.1 = i) then s.2 else acc) s_zero seeds.

(** Modelled from the spec: see [last_seed]. *)
Definition scaling_oracle (a : Scalar) : AdjointOracle Scalar := {|
  adjoint_pass seeds i := s_mul a (last_seed seeds i)
|}.

End Reference.

(** ** Concrete objects over IEEE doubles

    Fresh storage reads as [0.0]; the oracle differentiates [u ↦ 0.75·u]. *)

#[export] Instance three_quarters : AdjointOracle float :=
  scaling_oracle 0.75%float.

(** The object with its window replaced by [deltas], the last one current. *)
Definition holding (s : CNewtonUpdateOnSubspace float) (deltas : list (list float))
  : CNewtonUpdateOnSubspace float :=
  {| iSample := length deltas - 1; nPtDomain := nPtDomain s; work := work s;
     X := deltas; R := R s; work2 := work2 s; p := p s; p_R := p_R s;
     pn_R := pn_R s; EigenX := EigenX s; EigenR := EigenR s; DR := DR s;
     ProjectedJacobian := ProjectedJacobian s;
     NewtonInverseMatrix := NewtonInverseMatrix s;
     iBasis := iBasis s; BasisSize_n := BasisSize_n s |}.

Definition unwrap {A} (o : outcome A) (otherwise : A) : A :=
  match o with
  | Done a => a
  | Fault _ => otherwise
  end.

(** [resize(2, 1, 2, 1)], and the same with a raw iterate stored. *)
Definition fresh_two_point : CNewtonUpdateOnSubspace float :=
  unwrap (resize 0%float default_object 2 1 2 1 0) default_object.
Definition stored_object (iterate : list float) : CNewtonUpdateOnSubspace float :=
  store_FPresult fresh_two_point iterate.

(** [resize(2, 1, 1, 1)], window [1.0, 0.01]: one point, one variable. *)
Definition one_point_object : outcome (CNewtonUpdateOnSubspace float) :=
  let* s := resize 0%float default_object 2 1 1 1 0 in
  Done (holding s [[1%float]; [0x1.47ae147ae147bp-7%float]]).

(** Two raw iterates, [(1, 0)] and [(1, 0.01)], each followed by [compute]:
    the deltas are [(1, 0)] and [(0, 0.01)]. *)
Definition filling_calls : list (call float) :=
  [CallStore [1%float; 0%float]; CallCompute;
   CallStore [1%float; 0x1.47ae147ae147bp-7%float]; CallCompute].

(** [resize(2, 1, 2, 1)] and the two iterates: two points, window
    [(1, 0), (0, 0.01)]. *)
Definition two_point_object : outcome (CNewtonUpdateOnSubspace float) :=
  perform_all 0%float fresh_two_point filling_calls.

(** The calls up to the growth of the basis. *)
Definition growth_calls : list (call float) :=
  filling_calls ++ [CallCheckBasis 50%float].

(** [resize(2, 1, 2, 1)], window [(1, 0), (0, 0)]: the second diagonal
    entry of the factor is zero. *)
Definition zero_column_object : outcome (CNewtonUpdateOnSubspace float) :=
  let* s := resize 0%float default_object 2 1 2 1 0 in
  Done (holding s [[1%float; 0%float]; [0%float; 0%float]]).

(** [resize(2, 1, 2, 1, 1)]: two points of which the first is owned and the
    second is a halo point; two windows that agree on the owned point. *)
Definition halo_object (halo : float) : outcome (CNewtonUpdateOnSubspace float) :=
  let* s := resize 0%float default_object 2 1 2 1 1 in
  Done (holding s [[1%float; 0%float]; [0%float; halo]]).

(** A session of the outer solver on two points: two iterates fill the
    window, the basis grows, the Newton operator is formed, and a third
    iterate is corrected. *)
Definition grown_session : outcome (CNewtonUpdateOnSubspace float) :=
  perform_all 0%float fresh_two_point
    (growth_calls ++
     [CallComputeProjectedJacobian 0 [0%Z; 1%Z] [0%Z; 1%Z];
      CallStore [2%float; 3%float]; CallCompute]).

(** The same session up to the growth of the basis. *)
Definition grown_basis : outcome (CNewtonUpdateOnSubspace float) :=
  perform_all 0%float fresh_two_point growth_calls.

(** [resize(2, 1, 2, 1)], window [(∞, 0), (0, ∞)]: both diagonal entries of
    the factor are infinite and their ratio is a NaN. *)
Definition infinite_object : outcome (CNewtonUpdateOnSubspace float) :=
  let* s := resize 0%float default_object 2 1 2 1 0 in
  Done (holding s [[infinity; 0%float]; [0%float; infinity]]).

Definition one_point : CNewtonUpdateOnSubspace float :=
  unwrap one_point_object default_object.
Definition two_point : CNewtonUpdateOnSubspace float :=
  unwrap two_point_object default_object.
Definition zero_column : CNewtonUpdateOnSubspace float :=
  unwrap zero_column_object default_object.
Definition infinite_window : CNewtonUpdateOnSubspace float :=
  unwrap infinite_object default_object.
Definition grown : CNewtonUpdateOnSubspace float :=
  unwrap grown_basis default_object.
Definition grown_with_operator : CNewtonUpdateOnSubspace float :=
  unwrap (computeProjectedJacobian 0%float grown 0 [0%Z; 1%Z] [0%Z; 1%Z])
         default_object.

(** Three raw iterates fed to a fresh two-point object. *)
Definition three_iterates : list (list float) :=
  [[1%float; 0%float]; [1%float; 2%float]; [4%float; 2%float]].
Definition fed : CNewtonUpdateOnSubspace float * list (list float) :=
  unwrap (feed fresh_two_point three_iterates) (default_object, []).

(** The calls of a second session, after [reset]: the window refills along
    the other axis, the basis grows again and an iterate is corrected. *)
Definition regrowth_calls : list (call float) :=
  [CallStore [0%float; 1%float]; CallCompute;
   CallStore [0x1.47ae147ae147bp-7%float; 1%float]; CallCompute;
   CallCheckBasis 50%float;
   CallComputeProjectedJacobian 0 [0%Z; 1%Z] [0%Z; 1%Z];
   CallStore [2%float; 3%float]; CallCompute].

(** The object with the recorded basis size cleared. *)
Definition clear_BasisSize_n (s : CNewtonUpdateOnSubspace float)
  : CNewtonUpdateOnSubspace float :=
  {| iSample := iSample s; nPtDomain := nPtDomain s; work := work s;
     X := X s; R := R s; work2 := work2 s; p := p s; p_R := p_R s;
     pn_R := pn_R s; EigenX := EigenX s; EigenR := EigenR s; DR := DR s;
     ProjectedJacobian := ProjectedJacobian s;
     NewtonInverseMatrix := NewtonInverseMatrix s;
     iBasis := iBasis s; BasisSize_n := 0 |}.

(** What [checkBasis] returns on the two-point window with threshold 50. *)
Definition two_point_checked : bool * CNewtonUpdateOnSubspace float :=
  unwrap (checkBasis 0%float two_point 50%float) (false, default_object).

(** ** Concrete objects over the rationals

    Exact arithmetic on the canonical rationals. Fresh storage reads as
    [0]; the oracle is [scaling_oracle] with the factor one half. *)

(** The rational [a / b]. *)
Definition rational (a : Z) (b : positive) : Qcanon.Qc :=
  Qcanon.Q2Qc (QArith_base.Qmake a b).

(** The square root taken of numerator and denominator: exact on the
    squares of rationals, rounded down otherwise. The session below takes
    roots of [1] and of [1/10000] only. *)
Definition rational_sqrt (q : Qcanon.Qc) : Qcanon.Qc :=
  rational (Z.sqrt (QArith_base.Qnum (Qcanon.this q)))
           (Pos.sqrt (QArith_base.Qden (Qcanon.this q))).

(** The rationals as scalars; no positive rational is the smallest, so
    [s_tiny] is zero. *)
#[export] Instance rational_ops : ScalarOps Qcanon.Qc := {|
  s_zero := rational 0 1;
  s_one := rational 1 1;
  s_tiny := rational 0 1;
  s_add := Qcanon.Qcplus;
  s_sub := Qcanon.Qcminus;
  s_mul := Qcanon.Qcmult;
  s_div := Qcanon.Qcdiv;
  s_neg := Qcanon.Qcopp;
  s_abs := Qcabs.Qcabs;
  s_sqrt := rational_sqrt;
  s_gt := λ a b, negb (QArith_base.Qle_bool (Qcanon.this a) (Qcanon.this b));
  s_le := λ a b, QArith_base.Qle_bool (Qcanon.this a) (Qcanon.this b);
  s_ne := λ a b, negb (QArith_base.Qeq_bool (Qcanon.this a) (Qcanon.this b))
|}.

#[export] Instance one_half : AdjointOracle Qcanon.Qc :=
  scaling_oracle (rational 1 2).

(** A session on three points with room for two basis vectors: two
    iterates fill the window with [(1, 0, 0)] and [(0, 1/100, 0)], the basis
    gains [(1, 0, 0)], the Newton operator is formed, three more iterates
    refill the window with [(0, 1, 0)] and [(0, 0, 1/100)], and the basis
    gains [(0, -1, 0)]. *)
Definition rational_session : list (call Qcanon.Qc) :=
  [CallStore [rational 1 1; rational 0 1; rational 0 1]; CallCompute;
   CallStore [rational 1 1; rational 1 100; rational 0 1]; CallCompute;
   CallCheckBasis (rational 50 1);
   CallComputeProjectedJacobian 0 [1%Z; 0%Z; 2%Z] [0%Z; 1%Z; 2%Z];
   CallStore [rational 0 1; rational 0 1; rational 0 1]; CallCompute;
   CallStore [rational 0 1; rational 1 1; rational 0 1]; CallCompute;
   CallStore [rational 0 1; rational 1 1; rational 1 100]; CallCompute;
   CallCheckBasis (rational 50 1)].

(** [resize(2, 2, 3, 1)] followed by the session. *)
Definition rational_session_run : outcome (CNewtonUpdateOnSubspace Qcanon.Qc) :=
  let* s := resize (rational 0 1) default_object 2 2 3 1 0 in
  perform_all (rational 0 1) s rational_session.

Definition rational_two_vectors : CNewtonUpdateOnSubspace Qcanon.Qc :=
  unwrap rational_session_run default_object.

(** Equality of rational matrices, decided entry by entry. *)
Fixpoint list_eqb {A} (eqb : A → A → bool) (l k : list A) : bool :=
  match l, k with
  | [], [] => true
  | x :: l', y :: k' => eqb x y && list_eqb eqb l' k'
  | _, _ => false
  end.

Definition rational_matrix_eqb (A B : Matrix Qcanon.Qc) : bool :=
  (mrows A =? mrows B)
  && list_eqb (list_eqb (λ x y, QArith_base.Qeq_bool (Qcanon.this x)
                                                     (Qcanon.this y)))
              (mcolumns A) (mcolumns B).

(** An oracle over doubles that differentiates [u ↦ -48·u]: with the basis
    vector [(1, 0)] the projected Jacobian is [(-48)] and [I − J] is [(49)]. *)
Definition steep_oracle : AdjointOracle float := scaling_oracle (-48)%float.

(** The grown two-point object after [computeProjectedJacobian] with that
    oracle. *)
Definition grown_with_steep_operator : CNewtonUpdateOnSubspace float :=
  unwrap (computeProjectedJacobian (tape := steep_oracle) 0%float grown 0
            [0%Z; 1%Z] [0%Z; 1%Z])
         default_object.

(** The rational object after [computeProjectedJacobian]. *)
Definition rational_with_operator : CNewtonUpdateOnSubspace Qcanon.Qc :=
  unwrap (computeProjectedJacobian (rational 0 1) rational_two_vectors 0
            [1%Z; 0%Z; 2%Z] [0%Z; 1%Z; 2%Z])
         default_object.


(** * Properties *)

(** ** Outcomes and loops *)

Lemma and_then_done {A B} (m : outcome A) (k : A → outcome B) (r : B) :
  and_then m k = Done r → ∃ a, m = Done a ∧ k a = Done r.
Proof. destruct m as [a|f]; simpl; [eauto | discriminate]. Qed.

Lemma for_each_app {A St} (l1 l2 : list A) (body : A → St → outcome St) (st : St) :
  for_each (l1 ++ l2) body st
  = and_then (for_each l1 body st) (for_each l2 body).
Proof.
  revert st. induction l1 as [|k l1 IH]; intros st; simpl; [done|].
  destruct (body k st) as [st'|f]; simpl; [apply IH | done].
Qed.

Lemma at_index_done {A} (v : list A) (i : nat) (a : A) :
  at_index v i = Done a ↔ v !! i = Some a.
Proof.
  unfold at_index. destruct (v !! i); split; intros E; by inversion E.
Qed.

Lemma at_index_lt {A} (v : list A) (i : nat) :
  i < length v → ∃ a, at_index v i = Done a ∧ v !! i = Some a.
Proof.
  intros Hi. destruct (lookup_lt_is_Some_2 v i Hi) as [a Ha].
  exists a. split; [by apply at_index_done | done].
Qed.

Lemma data_at_done {A} (buf : list A) (i : nat) (a : A) :
  buf !! i = Some a → data_at buf i = Done a.
Proof. unfold data_at. by intros ->. Qed.

(** Peel the successful prefix of a computation in a hypothesis. *)
Ltac peel H :=
  repeat match type of H with
  | and_then _ _ = Done _ =>
      let a := fresh "a" in let E := fresh "E" in
      apply and_then_done in H as (a & E & H)
  end.

Section Properties.

Context {Scalar : Type} {ops : ScalarOps Scalar}.
Context {lib : DenseLibrary Scalar} {tape : AdjointOracle Scalar}.
Variable junk : Scalar.

Implicit Types (s : CNewtonUpdateOnSubspace Scalar).
Implicit Types (buf dst : list Scalar) (history : list (list Scalar)).

(** ** Element-wise loops over storage *)

Lemma data_loop_done (f : Scalar → Scalar → Scalar) (n : nat) dst (a b : list Scalar) :
  n ≤ length a → n ≤ length b → n ≤ length dst →
  data_loop f n dst a b = Done (zip_with f (take n a) (take n b) ++ drop n dst).
Proof.
  unfold data_loop. induction n as [|n IH]; intros Ha Hb Hd; [done|].
  rewrite seq_S, for_each_app, IH by lia. simpl.
  destruct (lookup_lt_is_Some_2 a n) as [x Hx]; [lia|].
  destruct (lookup_lt_is_Some_2 b n) as [y Hy]; [lia|].
  destruct (lookup_lt_is_Some_2 dst n) as [z Hz]; [lia|].
  assert (Hlen : length (zip_with f (take n a) (take n b)) = n).
  { rewrite length_zip_with, !length_take. lia. }
  rewrite (data_at_done _ _ _ Hx), (data_at_done _ _ _ Hy). simpl.
  rewrite (data_at_done _ n z); simpl.
  - f_equal. rewrite insert_app_r_alt by lia. rewrite Hlen, Nat.sub_diag.
    rewrite (drop_S _ _ _ Hz). simpl.
    rewrite (take_S_r _ _ _ Hx), (take_S_r _ _ _ Hy).
    rewrite zip_with_app by (rewrite !length_take; lia).
    by rewrite <- app_assoc.
  - rewrite lookup_app_r by lia. rewrite Hlen, Nat.sub_diag.
    by rewrite lookup_drop, Nat.add_0_r.
Qed.

Lemma data_loop_whole (f : Scalar → Scalar → Scalar) dst (a b : list Scalar) :
  length a = length dst → length b = length dst →
  data_loop f (length dst) dst a b = Done (zip_with f a b).
Proof.
  intros Ha Hb. rewrite data_loop_done by lia.
  rewrite drop_all, app_nil_r.
  by rewrite <- Ha at 1; rewrite <- Hb, !firstn_all.
Qed.

(** ** The history window *)

Lemma swap_sweep (x : list Scalar) (xs : list (list Scalar)) (k : nat) :
  k ≤ length xs →
  for_each (seq 1 k) (λ i h, swap_slots (i - 1) i h) (x :: xs)
  = Done (take k xs ++ x :: drop k xs).
Proof.
  induction k as [|k IH]; intros Hk; [done|].
  rewrite seq_S, for_each_app, IH by lia. simpl.
  destruct (lookup_lt_is_Some_2 xs k) as [y Hy]; [lia|].
  rewrite (drop_S _ _ _ Hy), (take_S_r _ _ _ Hy), Nat.sub_0_r.
  assert (Hlen : length (take k xs) = k) by (rewrite length_take; lia).
  unfold swap_slots.
  rewrite (proj2 (at_index_done _ k x)); simpl.
  2:{ rewrite lookup_app_r by lia. by rewrite Hlen, Nat.sub_diag. }
  rewrite (proj2 (at_index_done _ (S k) y)); simpl.
  2:{ rewrite lookup_app_r by lia. rewrite Hlen.
      by replace (S k - k) with 1 by lia. }
  f_equal. rewrite insert_app_r_alt by lia. rewrite Hlen, Nat.sub_diag. simpl.
  rewrite insert_app_r_alt by lia. rewrite Hlen.
  replace (S k - k) with 1 by lia. simpl. by rewrite <- app_assoc.
Qed.

Lemma shiftHistoryLeft_rotate history :
  shiftHistoryLeft history = Done (drop 1 history ++ take 1 history).
Proof.
  unfold shiftHistoryLeft. destruct history as [|x xs]; [done|].
  simpl length. rewrite Nat.sub_succ, Nat.sub_0_r, swap_sweep by lia.
  rewrite firstn_all, drop_all. simpl. by rewrite drop_0, firstn_O.
Qed.

Lemma insert_delta_full history sample delta :
  2 ≤ length history → sample + 1 = length history →
  insert_delta history sample delta
  = Done (drop 1 history ++ [delta], sample,
          default [] (history !! 0)).
Proof.
  intros Hlen Hfull. unfold insert_delta.
  rewrite decide_True by done. rewrite shiftHistoryLeft_rotate. simpl.
  destruct history as [|x xs]; [simpl in Hlen; lia|]. simpl in *.
  rewrite drop_0.
  assert (Hi : sample = length xs) by lia.
  rewrite Hi.
  rewrite (proj2 (at_index_done _ _ x)); simpl.
  2:{ rewrite lookup_app_r by lia. by rewrite Nat.sub_diag. }
  rewrite firstn_O, insert_app_r_alt by lia. by rewrite Nat.sub_diag.
Qed.

Lemma insert_delta_room_lookup history sample delta :
  sample + 1 < length history →
  ∃ old, history !! (sample + 1) = Some old ∧
         insert_delta history sample delta
         = Done (<[sample + 1 := delta]> history, sample + 1, old).
Proof.
  intros Hroom. unfold insert_delta.
  rewrite decide_False by lia. simpl.
  destruct (at_index_lt history (sample + 1) Hroom) as (old & -> & Hold).
  by exists old.
Qed.

(** [push_delta] is the delta of line 291 inserted into the window. *)
Lemma push_delta_unfold s :
  push_delta s
  = let* delta := delta_of s in
    let* r := insert_delta (X s) (iSample s) delta in
    Done {| iSample := r.1.2; nPtDomain := nPtDomain s; work := r.2;
            X := r.1.1; R := R s; work2 := work s; p := p s;
            p_R := p_R s; pn_R := pn_R s; EigenX := EigenX s;
            EigenR := EigenR s; DR := DR s;
            ProjectedJacobian := ProjectedJacobian s;
            NewtonInverseMatrix := NewtonInverseMatrix s;
            iBasis := iBasis s; BasisSize_n := BasisSize_n s |}.
Proof.
  unfold push_delta, insert_delta.
  destruct (decide (iSample s + 1 = length (X s))) as [Hfull|Hroom].
  - rewrite shiftHistoryLeft_rotate. simpl.
    destruct (delta_of s) as [d|f]; simpl; [|done].
    by destruct (at_index _ _).
  - simpl. destruct (delta_of s) as [d|f]; simpl; [|done].
    by destruct (at_index _ _).
Qed.

Lemma configured_delta nsample nbasis npt nvar s :
  configured nsample nbasis npt nvar s →
  delta_of s = Done (vec_sub (work s) (work2 s)).
Proof.
  intros C. unfold delta_of.
  replace (length (work s)) with (length (work2 s))
    by (by rewrite (cfg_work _ _ _ _ _ C), (cfg_work2 _ _ _ _ _ C)).
  apply data_loop_whole; [|done].
  by rewrite (cfg_work _ _ _ _ _ C), (cfg_work2 _ _ _ _ _ C).
Qed.

(** Inserting into the window of a configured object succeeds, keeps the
    shape of the window and hands back storage of the solution size. *)
Lemma insert_delta_configured nsample nbasis npt nvar s delta :
  configured nsample nbasis npt nvar s → length delta = npt * nvar →
  ∃ h i old,
    insert_delta (X s) (iSample s) delta = Done (h, i, old) ∧
    length h = nsample ∧ Forall (λ b, length b = npt * nvar) h ∧
    i < nsample ∧ length old = npt * nvar ∧ h !! i = Some delta.
Proof.
  intros C Hd.
  pose proof (cfg_nsample _ _ _ _ _ C) as Hn.
  pose proof (cfg_X _ _ _ _ _ C) as HX.
  pose proof (cfg_X_each _ _ _ _ _ C) as Heach.
  pose proof (cfg_iSample _ _ _ _ _ C) as Hi.
  destruct (decide (iSample s + 1 = length (X s))) as [Hfull|Hroom].
  - rewrite insert_delta_full by lia.
    destruct (X s) as [|x xs] eqn:EX; [simpl in HX; lia|].
    simpl in *. rewrite drop_0.
    apply Forall_cons in Heach as [Hx Hxs].
    exists (xs ++ [delta]), (iSample s), x. repeat split; try done.
    + rewrite length_app. simpl. lia.
    + apply Forall_app. split; [done|]. by apply Forall_cons.
    + rewrite lookup_app_r by lia.
      by replace (iSample s - length xs) with 0 by lia.
  - destruct (insert_delta_room_lookup (X s) (iSample s) delta) as (old & Hold & ->);
      [lia|].
    exists (<[iSample s + 1 := delta]> (X s)), (iSample s + 1), old.
    repeat split.
    + by rewrite length_insert.
    + by apply Forall_insert.
    + lia.
    + by apply (Forall_lookup_1 _ _ _ _ Heach Hold).
    + apply list_lookup_insert_eq. lia.
Qed.

(** ** compute on an object whose basis is empty *)

Lemma compute_empty_basis nsample nbasis npt nvar s :
  configured nsample nbasis npt nvar s → iBasis s = 0 →
  ∃ s', compute s = Done s' ∧
        FPresult s' = map (λ x, s_add x s_zero) (work s) ∧
        p s' = replicate (npt * nvar) s_zero ∧
        configured nsample nbasis npt nvar s' ∧ iBasis s' = 0 ∧
        ∃ old, insert_delta (X s) (iSample s) (vec_sub (work s) (work2 s))
               = Done (X s', iSample s', old).
Proof.
  intros C H0.
  pose proof (cfg_work _ _ _ _ _ C) as Hw.
  pose proof (cfg_work2 _ _ _ _ _ C) as Hw2.
  pose proof (cfg_p _ _ _ _ _ C) as Hp.
  assert (Hd : length (vec_sub (work s) (work2 s)) = npt * nvar).
  { unfold vec_sub. rewrite length_zip_with. lia. }
  destruct (insert_delta_configured _ _ _ _ s _ C Hd)
    as (h & i & old & Hins & Hh & Heach & Hi & Hold & Hlook).
  unfold compute, remove_projection. rewrite H0. simpl.
  rewrite push_delta_unfold. unfold delta_of at 1. simpl.
  fold (delta_of s). rewrite (configured_delta _ _ _ _ _ C). simpl.
  rewrite Hins. simpl.
  unfold add_correction. simpl.
  rewrite data_loop_whole by (unfold fill; rewrite ?length_replicate; lia).
  simpl. eexists. split; [reflexivity|]. unfold FPresult. simpl.
  unfold fill. rewrite Hp.
  repeat split; simpl; try done; try lia; try apply C.
  - by rewrite zip_with_replicate_r_eq.
  - rewrite length_zip_with, length_replicate. lia.
  - by rewrite length_replicate.
  - by exists old.
Qed.


(** ** resize *)

Lemma resize_checks_pass (nsample npt nptdomain : nat) :
  nptdomain ≤ npt → 2 ≤ nsample →
  negb ((npt <? nptdomain) || (nsample <? 2)) = true.
Proof.
  intros H1 H2.
  destruct (Nat.ltb_spec npt nptdomain); [lia|].
  destruct (Nat.ltb_spec nsample 2); [lia|done].
Qed.

Lemma resize_done s (nsample nbasis npt nvar nptdomain : nat) :
  nptdomain ≤ npt → 2 ≤ nsample → 1 ≤ nbasis →
  ∃ s', resize junk s nsample nbasis npt nvar nptdomain = Done s' ∧
        configured nsample nbasis npt nvar s' ∧
        size s' = nbasis ∧ iBasis s' = 0 ∧ iSample s' = 0.
Proof.
  intros Hdom Hsample Hbasis. unfold resize.
  rewrite (resize_checks_pass _ _ _ Hdom Hsample). simpl.
  destruct nsample as [|n]; [lia|]. destruct nbasis as [|b]; [lia|]. simpl.
  eexists. split; [reflexivity|].
  unfold size, fill, mcols, mat_resize. simpl.
  rewrite !length_replicate.
  repeat split; simpl; rewrite ?length_replicate; try done; try lia.
  - apply Forall_cons. split; [by rewrite length_replicate|].
    apply Forall_replicate. by rewrite length_replicate.
  - apply Forall_cons. split; [by rewrite length_replicate|].
    apply Forall_replicate. by rewrite length_replicate.
  - unfold mcols. simpl. by rewrite length_replicate.
Qed.

(** C9: [resize] writes [R[0]] whatever [nbasis] is. With parameters that
    pass the documented checks and [nbasis = 0] the write is past the end of
    the empty basis vector; with [nbasis ≥ 1] the call completes and leaves a
    configured object with an empty window and an empty basis. *)
Theorem resize_writes_first_basis_slot s (nsample npt nvar nptdomain : nat) :
  nptdomain ≤ npt → 2 ≤ nsample →
  resize junk s nsample 0 npt nvar nptdomain = Fault (VectorIndex 0 0) ∧
  ∀ nbasis, 1 ≤ nbasis →
    ∃ s', resize junk s nsample nbasis npt nvar nptdomain = Done s' ∧
          configured nsample nbasis npt nvar s' ∧
          size s' = nbasis ∧ iBasis s' = 0 ∧ iSample s' = 0.
Proof.
  intros Hdom Hsample. split.
  - unfold resize.
    rewrite (resize_checks_pass _ _ _ Hdom Hsample). simpl.
    destruct nsample as [|n]; [lia|]. done.
  - intros nbasis Hbasis. by apply resize_done.
Qed.


(** ** checkBasis: loading the window and forming the quotients *)

Lemma for_each_total {A St} (ks : list A) (body : A → St → outcome St) (st : St) :
  (∀ k st0, k ∈ ks → ∃ st1, body k st0 = Done st1) →
  ∃ st', for_each ks body st = Done st'.
Proof.
  revert st. induction ks as [|k ks IH]; intros st Hbody; simpl; [eauto|].
  destruct (Hbody k st) as [st1 ->]; [by left|]. simpl.
  apply IH. intros k' st0 Hk'. apply Hbody. by right.
Qed.

Lemma load_columns_done (M : Matrix Scalar) (bufs : list (list Scalar)) (n count : nat) :
  Forall (λ b, length b = n) bufs → mrows M = n →
  count ≤ length bufs → count ≤ mcols M →
  load_columns M bufs count
  = Done {| mrows := n; mcolumns := take count bufs ++ drop count (mcolumns M) |}.
Proof.
  intros Heach Hrows. unfold load_columns, mcols.
  induction count as [|c IH]; intros Hb Hc.
  - simpl. rewrite drop_0. destruct M; simpl in *. by subst.
  - rewrite seq_S, for_each_app, IH by lia. simpl.
    destruct (at_index_lt bufs c) as (b & -> & Hbc); [lia|]. simpl.
    destruct (at_index_lt bufs 0) as (b0 & -> & Hb0); [lia|]. simpl.
    pose proof (Forall_lookup_1 _ _ _ _ Heach Hbc) as Lb.
    pose proof (Forall_lookup_1 _ _ _ _ Heach Hb0) as Lb0.
    simpl in Lb, Lb0. unfold map_view. rewrite Lb0, Lb, Nat.leb_refl. simpl.
    rewrite (take_ge b n) by lia. unfold mcols. simpl.
    assert (Ht : length (take c bufs) = c) by (rewrite length_take; lia).
    rewrite length_app, length_drop, Ht, Lb, Nat.eqb_refl.
    destruct (Nat.ltb_spec c (c + (length (mcolumns M) - c))); [|lia]. simpl.
    f_equal. f_equal.
    destruct (lookup_lt_is_Some_2 (mcolumns M) c) as [col Hcol]; [lia|].
    rewrite insert_app_r_alt by lia. rewrite Ht, Nat.sub_diag.
    rewrite (drop_S _ _ _ Hcol). simpl.
    rewrite (take_S_r _ _ _ Hbc). by rewrite <- app_assoc.
Qed.

Lemma load_window nsample nbasis npt nvar s :
  configured nsample nbasis npt nvar s →
  load_columns (EigenX s) (X s) (length (X s))
  = Done {| mrows := npt * nvar; mcolumns := X s |}.
Proof.
  intros C.
  rewrite (load_columns_done _ _ (npt * nvar)); try apply C; try done.
  - rewrite firstn_all, drop_ge, app_nil_r; [done|].
    pose proof (cfg_EigenX_cols _ _ _ _ _ C) as Hc. unfold mcols in Hc.
    rewrite Hc, (cfg_X _ _ _ _ _ C). lia.
  - rewrite (cfg_X _ _ _ _ _ C), (cfg_EigenX_cols _ _ _ _ _ C). lia.
Qed.

Lemma diag_at_done (Rdiag : list Scalar) (i : nat) (d : Scalar) :
  Rdiag !! i = Some d → diag_at Rdiag i = Done d.
Proof. unfold diag_at. by intros ->. Qed.

Lemma quotient_loop_prefix (Rdiag : list Scalar) (N m : nat) :
  m ≤ N → m = 0 ∨ m + 1 ≤ length Rdiag →
  for_each (seq 0 m)
    (λ i q,
       let* d1 := diag_at Rdiag (i + 1) in
       if s_ne d1 s_zero
       then let* d0 := diag_at Rdiag i in Done (<[i:=s_div d0 d1]> q)
       else Done q)
    (replicate N s_zero)
  = Done (map (quotient_at Rdiag) (seq 0 m) ++ replicate (N - m) s_zero).
Proof.
  induction m as [|m IH]; intros HN Hlen.
  - simpl. by rewrite Nat.sub_0_r.
  - rewrite seq_S, for_each_app, IH by lia. simpl.
    destruct (lookup_lt_is_Some_2 Rdiag (m + 1)) as [d1 Hd1]; [lia|].
    destruct (lookup_lt_is_Some_2 Rdiag m) as [d0 Hd0]; [lia|].
    rewrite (diag_at_done _ _ _ Hd1). simpl.
    assert (Hq : quotient_at Rdiag m
                 = if s_ne d1 s_zero then s_div d0 d1 else s_zero)
      by (unfold quotient_at; by rewrite Hd1, Hd0).
    rewrite map_app. simpl. rewrite Hq.
    assert (Hm : length (map (quotient_at Rdiag) (seq 0 m)) = m)
      by (by rewrite length_map, length_seq).
    replace (N - m) with (S (N - S m)) by lia. simpl.
    destruct (s_ne d1 s_zero).
    + rewrite (diag_at_done _ _ _ Hd0). simpl. f_equal.
      rewrite insert_app_r_alt by lia. rewrite Hm, Nat.sub_diag. simpl.
      by rewrite <- app_assoc.
    + f_equal. by rewrite <- app_assoc.
Qed.

Lemma krylov_quotients_done (Rdiag : list Scalar) (n : nat) :
  n = 0 ∨ n + 1 ≤ length Rdiag →
  krylov_quotients Rdiag n = Done (map (quotient_at Rdiag) (seq 0 n)).
Proof.
  intros Hlen. unfold krylov_quotients.
  rewrite quotient_loop_prefix by (done || lia).
  by rewrite Nat.sub_diag, app_nil_r.
Qed.

Lemma krylov_quotients_short (Rdiag : list Scalar) (n : nat) :
  length Rdiag < n + 1 → 1 ≤ n →
  krylov_quotients Rdiag n
  = Fault (DiagonalIndex (1 `max` length Rdiag) (length Rdiag)).
Proof.
  intros Hshort Hn. unfold krylov_quotients.
  set (i0 := (1 `max` length Rdiag) - 1).
  replace n with (i0 + S (n - S i0)) at 1 by lia.
  rewrite seq_app, for_each_app, quotient_loop_prefix by lia.
  simpl. unfold diag_at.
  replace (i0 + 1) with (1 `max` length Rdiag) by lia.
  rewrite lookup_ge_None_2 by lia. done.
Qed.


Context {shape : DenseLibraryShape lib}.

(** The factor of a configured window. *)
Lemma window_diagonal_length nsample nbasis npt nvar s :
  configured nsample nbasis npt nvar s →
  length (qr_diagonal {| mrows := npt * nvar; mcolumns := X s |})
  = (npt * nvar) `min` nsample.
Proof.
  intros C. rewrite qr_diagonal_length. unfold mcols. simpl.
  by rewrite (cfg_X _ _ _ _ _ C).
Qed.

Lemma write_view_length buf (n : nat) (v : list Scalar) :
  n ≤ length buf → length (write_view buf n v) = length buf.
Proof.
  intros Hn. unfold write_view.
  rewrite length_app, length_drop, length_take. lia.
Qed.

Lemma orthogonalize_total (basis : list (list Scalar)) (n count : nat) (v : list Scalar) :
  count ≤ length basis → Forall (λ b, length b = n) basis →
  ∃ v', orthogonalize basis n count v = Done v'.
Proof.
  intros Hc Heach. apply for_each_total. intros i v0 Hi.
  apply elem_of_seq in Hi.
  destruct (at_index_lt basis i) as (b & -> & Hb); [lia|]. simpl.
  pose proof (Forall_lookup_1 _ _ _ _ Heach Hb) as Lb. simpl in Lb.
  unfold map_view. rewrite Lb, Nat.leb_refl. simpl. eauto.
Qed.

(** With a full window, spare capacity and at least as many rows as
    samples, [checkBasis] forms every quotient and then either rejects,
    leaving the basis alone, or runs the growth branch to completion; after
    growth the columns of [EigenR] are the active basis vectors. *)
Lemma checkBasis_full_window nsample nbasis npt nvar s k :
  configured nsample nbasis npt nvar s →
  iSample s + 1 = nsample → iBasis s < nbasis → nsample ≤ npt * nvar →
  let EX := {| mrows := npt * nvar; mcolumns := X s |} in
  ∃ s', checkBasis junk s k
        = Done (criterion_met (quotient_at (qr_diagonal EX) 0) k, s') ∧
        iBasis s' = iBasis s
                    + (if criterion_met (quotient_at (qr_diagonal EX) 0) k
                       then 1 else 0) ∧
        (criterion_met (quotient_at (qr_diagonal EX) 0) k = true →
         mcolumns (EigenR s') = take (iBasis s') (R s')).
Proof.
  intros C Hfull Hspare Hrows EX.
  pose proof (cfg_nsample _ _ _ _ _ C) as Hn.
  pose proof (cfg_X _ _ _ _ _ C) as HX.
  pose proof (cfg_R _ _ _ _ _ C) as HR.
  pose proof (cfg_R_each _ _ _ _ _ C) as HReach.
  unfold checkBasis.
  destruct (Nat.ltb_spec (iSample s + 1) (length (X s))); [lia|].
  destruct (Nat.ltb_spec (iBasis s) (length (R s))); [|lia].
  rewrite (load_window _ _ _ _ _ C). simpl. fold EX.
  rewrite krylov_quotients_done.
  2:{ right. unfold EX. rewrite (window_diagonal_length _ _ _ _ _ C). lia. }
  simpl. rewrite HX.
  destruct (nsample - 1) as [|m] eqn:Em; [lia|]. simpl.
  destruct (criterion_met (quotient_at (qr_diagonal EX) 0) k);
    [|eexists; repeat split; [simpl; lia|done]].
  replace (iBasis s + 1 - 1) with (iBasis s) by lia.
  destruct (at_index_lt (R s) (iBasis s)) as (slot & -> & Hslot); [lia|]. simpl.
  destruct (at_index_lt (R s) 0) as (r0 & -> & Hr0); [lia|]. simpl.
  pose proof (Forall_lookup_1 _ _ _ _ HReach Hslot) as Lslot.
  pose proof (Forall_lookup_1 _ _ _ _ HReach Hr0) as Lr0.
  simpl in Lslot, Lr0.
  unfold map_view at 1. rewrite Lslot, Lr0, Nat.leb_refl, Nat.eqb_refl. simpl.
  destruct (orthogonalize_total (R s) (npt * nvar) (iBasis s)
              (qr_Q_times EX (unit_vector (npt * nvar) 0)))
    as [v ->]; [lia|done|]. simpl.
  rewrite (load_columns_done _ _ (npt * nvar)).
  - simpl. eexists. repeat split. simpl. intros _.
    rewrite drop_ge, app_nil_r; [done|]. rewrite length_replicate. lia.
  - apply Forall_insert; [done|]. rewrite write_view_length; lia.
  - simpl. apply C.
  - rewrite length_insert. lia.
  - unfold mcols, mat_resize. simpl. by rewrite length_replicate.
Qed.

(** C10: with a full window and spare capacity, [checkBasis] reads
    [Rdiag(i+1)] for every [i] up to [nsample - 2] of a diagonal that has
    [min (npt·nvar) nsample] entries. When [npt·nvar < nsample] a read lands
    outside the diagonal (the first one at index [npt·nvar], or at index 1
    when there are no rows at all); when [npt·nvar ≥ nsample] the diagonal
    has [nsample] entries, every quotient is formed and the call completes. *)
Theorem checkBasis_diagonal_reads nsample nbasis npt nvar s k :
  configured nsample nbasis npt nvar s →
  iSample s + 1 = nsample → iBasis s < nbasis →
  let Rdiag := qr_diagonal {| mrows := npt * nvar; mcolumns := X s |} in
  (npt * nvar < nsample →
     length Rdiag = npt * nvar ∧
     checkBasis junk s k
     = Fault (DiagonalIndex (1 `max` (npt * nvar)) (npt * nvar))) ∧
  (nsample ≤ npt * nvar →
     length Rdiag = nsample ∧
     krylov_quotients Rdiag (nsample - 1)
     = Done (map (quotient_at Rdiag) (seq 0 (nsample - 1))) ∧
     ∃ r, checkBasis junk s k = Done r).
Proof.
  intros C Hfull Hspare Rdiag.
  pose proof (cfg_nsample _ _ _ _ _ C) as Hn.
  pose proof (window_diagonal_length _ _ _ _ _ C) as Hlen. fold Rdiag in Hlen.
  split; intros Hrows.
  - split; [lia|]. unfold checkBasis.
    destruct (Nat.ltb_spec (iSample s + 1) (length (X s)));
      [rewrite (cfg_X _ _ _ _ _ C) in *; lia|].
    destruct (Nat.ltb_spec (iBasis s) (length (R s)));
      [|rewrite (cfg_R _ _ _ _ _ C) in *; lia].
    rewrite (load_window _ _ _ _ _ C). simpl. fold Rdiag.
    rewrite krylov_quotients_short; rewrite ?(cfg_X _ _ _ _ _ C); try lia.
    simpl. do 2 f_equal; lia.
  - split; [lia|]. split.
    + apply krylov_quotients_done. right. lia.
    + destruct (checkBasis_full_window _ _ _ _ s k C Hfull Hspare Hrows)
        as (s' & -> & _). eauto.
Qed.



(** ** The active basis count along calls *)

Lemma checkBasis_count s k (b : bool) s' :
  checkBasis junk s k = Done (b, s') →
  iBasis s' = iBasis s + (if b then 1 else 0) ∧ size s' = size s ∧
  (b = true → length (X s) ≤ iSample s + 1 ∧ iBasis s < size s).
Proof.
  unfold checkBasis, size. intros Hc.
  destruct (Nat.ltb_spec (iSample s + 1) (length (X s))) as [Hwin|Hwin].
  { injection Hc as <- <-. repeat split; (lia || done). }
  destruct (Nat.ltb_spec (iBasis s) (length (R s))) as [Hcap|Hcap].
  2:{ injection Hc as <- <-. repeat split; (lia || done). }
  peel Hc.
  destruct (criterion_met _ _).
  - peel Hc. injection Hc as <- <-. simpl.
    rewrite length_insert. repeat split; lia.
  - injection Hc as <- <-. simpl. repeat split; (lia || done).
Qed.

Lemma projectOntoSubspace_count s s' :
  projectOntoSubspace s = Done s' →
  iBasis s' = iBasis s ∧ R s' = R s ∧ X s' = X s ∧ iSample s' = iSample s.
Proof.
  unfold projectOntoSubspace. intros Hp. peel Hp. by injection Hp as <-.
Qed.

Lemma updateProjectedSolution_count s s' :
  updateProjectedSolution s = Done s' →
  iBasis s' = iBasis s ∧ R s' = R s ∧ X s' = X s ∧ iSample s' = iSample s.
Proof.
  unfold updateProjectedSolution. intros Hu. peel Hu. by injection Hu as <-.
Qed.

Lemma remove_projection_count s s' :
  remove_projection s = Done s' →
  iBasis s' = iBasis s ∧ R s' = R s ∧ X s' = X s ∧ iSample s' = iSample s.
Proof.
  unfold remove_projection. intros Hr. destruct (0 <? iBasis s).
  - peel Hr. injection Hr as <-. simpl.
    by apply projectOntoSubspace_count.
  - by injection Hr as <-.
Qed.

Lemma push_delta_count s s' :
  push_delta s = Done s' → iBasis s' = iBasis s ∧ R s' = R s.
Proof.
  rewrite push_delta_unfold. intros Hp. peel Hp. by injection Hp as <-.
Qed.

Lemma add_correction_count s s' :
  add_correction s = Done s' →
  iBasis s' = iBasis s ∧ R s' = R s ∧ X s' = X s ∧ iSample s' = iSample s.
Proof.
  unfold add_correction. intros Ha. peel Ha. injection Ha as <-. simpl.
  destruct (0 <? iBasis s).
  - by apply updateProjectedSolution_count.
  - by injection E as <-.
Qed.

Lemma compute_count s s' :
  compute s = Done s' → iBasis s' = iBasis s ∧ R s' = R s.
Proof.
  unfold compute. intros Hc. peel Hc.
  apply remove_projection_count in E as (E1 & E2 & _).
  apply push_delta_count in E0 as (E3 & E4).
  apply add_correction_count in Hc as (E5 & E6 & _).
  split; congruence.
Qed.

Lemma computeProjectedJacobian_count s z (i o : list Z) s' :
  computeProjectedJacobian junk s z i o = Done s' →
  iBasis s' = iBasis s ∧ R s' = R s.
Proof.
  unfold computeProjectedJacobian. intros Hj. peel Hj. by injection Hj as <-.
Qed.

Lemma perform_count s (c : call Scalar) s' :
  perform junk s c = Done s' →
  iBasis s ≤ iBasis s' ∧ size s' = size s ∧
  iBasis s' ≤ iBasis s + checkBasis_calls [c] ∧
  (iBasis s ≤ size s → iBasis s' ≤ size s').
Proof.
  unfold size. destruct c as [v| |k|z i o]; simpl; intros Hp.
  - injection Hp as <-. simpl. repeat split; lia.
  - apply compute_count in Hp as [-> ->]. repeat split; lia.
  - peel Hp. injection Hp as <-. destruct a as [b s1]. simpl.
    apply checkBasis_count in E as (E1 & E2 & E3). unfold size in *.
    destruct b; [destruct E3 as [_ E3]; [done|]|]; repeat split; lia.
  - apply computeProjectedJacobian_count in Hp as [-> ->]. repeat split; lia.
Qed.

Lemma checkBasis_calls_cons (c : call Scalar) (cs : list (call Scalar)) :
  checkBasis_calls (c :: cs) = checkBasis_calls [c] + checkBasis_calls cs.
Proof. by destruct c. Qed.

(** C7: [checkBasis] moves the active count by one when it returns true and
    not at all otherwise, and it returns true only with a full window and
    [iBasis < R.size()]; [compute] leaves the count alone. Hence along any
    completed sequence of calls to [compute], [checkBasis],
    [computeProjectedJacobian] and stores through [FPresult()], the count
    never decreases, grows by no more than the number of [checkBasis] calls,
    and stays within the capacity [R.size()], which does not change. *)
Theorem basis_count_monotone_bounded :
  (∀ s k (b : bool) s',
     checkBasis junk s k = Done (b, s') →
     iBasis s' = iBasis s + (if b then 1 else 0) ∧
     (b = true → length (X s) ≤ iSample s + 1 ∧ iBasis s < size s)) ∧
  (∀ s s', compute s = Done s' → iBasis s' = iBasis s) ∧
  (∀ s (cs : list (call Scalar)) s',
     perform_all junk s cs = Done s' → iBasis s ≤ size s →
     iBasis s ≤ iBasis s' ∧ iBasis s' ≤ iBasis s + checkBasis_calls cs ∧
     iBasis s' ≤ size s' ∧ size s' = size s).
Proof.
  split; [|split].
  - intros s k b s' Hc. by apply checkBasis_count in Hc as (? & _ & ?).
  - intros s s' Hc. by apply compute_count in Hc as [? _].
  - intros s cs. revert s. unfold perform_all.
    induction cs as [|c cs IH]; intros s s' Hrun Hcap.
    + injection Hrun as <-. simpl. lia.
    + simpl in Hrun. peel Hrun.
      apply perform_count in E as (E1 & E2 & E3 & E4).
      apply IH in Hrun as (I1 & I2 & I3 & I4); [|by apply E4].
      rewrite checkBasis_calls_cons. repeat split; lia.
Qed.


(** ** computeProjectedJacobian *)

Lemma collect_lookup {A B} (f : A → outcome B) (l : list A) (bs : list B) :
  collect f l = Done bs →
  length bs = length l ∧
  ∀ i a, l !! i = Some a → ∃ b, bs !! i = Some b ∧ f a = Done b.
Proof.
  revert bs. induction l as [|a l IH]; intros bs Hc; simpl in Hc.
  - injection Hc as <-. split; [done|]. intros i a Hi. by destruct i.
  - peel Hc. injection Hc as <-.
    destruct (IH _ E0) as [Hlen Hl]. split; [simpl; lia|].
    intros [|i] a' Hi; simpl in *.
    + injection Hi as <-. eauto.
    + by apply Hl.
Qed.

Lemma jacobian_turn_entries s (InputIndices OutputIndices : list Z) (j : nat)
    (dr pj : list Scalar) :
  jacobian_turn junk s InputIndices OutputIndices j = Done (dr, pj) →
  length pj = iBasis s ∧
  (∀ i, i < iBasis s →
        ∃ ci, mcolumns (EigenR s) !! i = Some ci ∧ pj !! i = Some (dot ci dr)) ∧
  ∃ Rj seeds,
    R s !! j = Some Rj ∧ seeds_of OutputIndices Rj = Done seeds ∧
    ∀ it, it < length Rj →
          ∃ idx, InputIndices !! it = Some idx ∧
                 dr !! it = Some (adjoint_pass seeds idx).
Proof.
  unfold jacobian_turn. intros Ht. peel Ht. injection Ht as <- <-.
  rename a into Rj, a0 into seeds, a1 into d, a3 into pj.
  apply at_index_done in E.
  apply collect_lookup in E3 as [Lpj Hpj].
  apply collect_lookup in E1 as [Ld Hd].
  rewrite length_seq in Lpj, Ld.
  split; [done|]. split.
  - intros i Hi. destruct (Hpj i i) as (e & He & Hf); [by apply lookup_seq_lt|].
    peel Hf. injection Hf as <-. unfold column_at in E1.
    destruct (mcolumns (EigenR s) !! i) as [ci|] eqn:Eci; [|done].
    injection E1 as <-. eauto.
  - exists Rj, seeds. repeat split; try done.
    intros it Hit. destruct (Hd it it) as (e & He & Hf); [by apply lookup_seq_lt|].
    peel Hf. injection Hf as <-. unfold data_at in E1.
    destruct (InputIndices !! it) as [idx|] eqn:Eidx; [|done].
    injection E1 as <-. exists idx. split; [done|].
    unfold write_view. rewrite firstn_all, lookup_app_l by lia. done.
Qed.

Context {exact : DenseInverseExact lib}.



(** ** The window as a queue *)

Lemma insert_delta_step history sample delta (pre : list (list Scalar)) :
  2 ≤ length history → sample < length history →
  take (sample + 1) history = drop (length pre - length history) pre →
  ∃ h' sample' old,
    insert_delta history sample delta = Done (h', sample', old) ∧
    length h' = length history ∧ sample' < length history ∧
    take (sample' + 1) h'
    = drop (length (pre ++ [delta]) - length history) (pre ++ [delta]).
Proof.
  intros Hn Hs Hpre.
  assert (Hlen : sample + 1 = length pre `min` length history).
  { apply (f_equal length) in Hpre.
    rewrite length_take, length_drop in Hpre. lia. }
  rewrite length_app. simpl.
  destruct (decide (sample + 1 = length history)) as [Hfull|Hroom].
  - rewrite insert_delta_full by done.
    exists (drop 1 history ++ [delta]), sample, (default [] (history !! 0)).
    split; [done|].
    assert (Hh : length (drop 1 history ++ [delta]) = length history).
    { rewrite length_app, length_drop. simpl. lia. }
    split; [done|]. split; [done|].
    rewrite take_ge by lia.
    rewrite Hfull, firstn_all in Hpre. rewrite Hpre at 1.
    rewrite drop_drop, drop_app_le by lia. f_equal. f_equal. lia.
  - destruct (insert_delta_room_lookup history sample delta) as (old & Hold & ->);
      [lia|].
    exists (<[sample + 1 := delta]> history), (sample + 1), old.
    split; [done|]. rewrite length_insert. split; [done|]. split; [lia|].
    replace (length pre + 1 - length history) with 0 by lia.
    replace (length pre - length history) with 0 in Hpre by lia.
    rewrite !drop_0 in *. rewrite <- Hpre.
    replace (sample + 1 + 1) with (S (sample + 1)) by lia.
    rewrite (take_S_r _ _ delta) by (apply list_lookup_insert_eq; lia).
    by rewrite take_insert_ge by lia.
Qed.

Lemma insert_all_window (deltas : list (list Scalar)) :
  ∀ history sample (pre : list (list Scalar)),
    2 ≤ length history → sample < length history →
    take (sample + 1) history = drop (length pre - length history) pre →
    ∃ h' sample',
      insert_all history sample deltas = Done (h', sample') ∧
      length h' = length history ∧ sample' < length history ∧
      take (sample' + 1) h'
      = drop (length (pre ++ deltas) - length history) (pre ++ deltas).
Proof.
  induction deltas as [|d ds IH]; intros history sample pre Hn Hs Hpre; simpl.
  - exists history, sample. by rewrite app_nil_r.
  - destruct (insert_delta_step history sample d pre Hn Hs Hpre)
      as (h1 & s1 & old & -> & Hh1 & Hs1 & Hpre1). simpl.
    destruct (IH h1 s1 (pre ++ [d])) as (h' & s' & Hrun & Hh' & Hs' & Hfin);
      [lia|lia|by rewrite Hh1|].
    exists h', s'. rewrite <- app_assoc in Hfin. simpl in Hfin.
    rewrite Hh1 in *. done.
Qed.

Lemma feed_inserts (iterates : list (list Scalar)) :
  ∀ s s' (deltas : list (list Scalar)),
    feed s iterates = Done (s', deltas) →
    length deltas = length iterates ∧
    insert_all (X s) (iSample s) deltas = Done (X s', iSample s').
Proof.
  induction iterates as [|v vs IH]; intros s s' deltas Hf; simpl in Hf.
  - by injection Hf as <- <-.
  - peel Hf. injection Hf as <- <-.
    rename a into s1, a0 into d, a1 into s2, a2 into r.
    destruct r as [sf df]. simpl in *.
    apply IH in E2 as [Hlen Hins]. split; [lia|].
    unfold compute in E1. rewrite E in E1. simpl in E1. peel E1.
    rename a into s3.
    apply remove_projection_count in E as (_ & _ & HX1 & HS1). simpl in *.
    rewrite push_delta_unfold, E0 in E2. simpl in E2. peel E2.
    injection E2 as <-.
    apply add_correction_count in E1 as (_ & _ & HX3 & HS3). simpl in *.
    rewrite <- HX1, <- HS1, E. simpl. by rewrite <- HX3, <- HS3.
Qed.

(** Feeding iterates of the solution size to a configured object with an
    empty basis always completes. *)
Lemma feed_total nsample nbasis npt nvar (iterates : list (list Scalar)) :
  ∀ s, configured nsample nbasis npt nvar s → iBasis s = 0 →
       Forall (λ v, length v = npt * nvar) iterates →
       ∃ r, feed s iterates = Done r.
Proof.
  induction iterates as [|v vs IH]; intros s C H0 Hall; simpl; [eauto|].
  apply Forall_cons in Hall as [Hv Hvs].
  assert (C0 : configured nsample nbasis npt nvar (store_FPresult s v))
    by (split; simpl; (done || apply C)).
  destruct (compute_empty_basis _ _ _ _ _ C0 H0)
    as (s' & Hrun & _ & _ & C' & H0' & _).
  unfold remove_projection. simpl. rewrite H0. simpl.
  change (delta_of _) with (delta_of (store_FPresult s v)).
  rewrite (configured_delta _ _ _ _ _ C0). simpl.
  rewrite Hrun. simpl.
  destruct (IH s' C' H0' Hvs) as [r ->]. simpl. eauto.
Qed.

(** C8: [shiftHistoryLeft] rotates the storage one slot to the left; on a full
    window [compute] rotates and swaps the new delta into the last slot, the
    storage of the evicted oldest entry coming back to the caller; and after
    at least [nsample] insertions through [compute] the window holds
    exactly the last [nsample] deltas, oldest first. *)
Theorem history_window_is_fifo :
  (∀ history,
     shiftHistoryLeft history = Done (drop 1 history ++ take 1 history)) ∧
  (∀ history h' (i : nat),
     shiftHistoryLeft history = Done h' →
     length h' = length history ∧
     (i + 1 < length history → h' !! i = history !! (i + 1)) ∧
     (0 < length history → h' !! (length history - 1) = history !! 0)) ∧
  (∀ history sample delta,
     2 ≤ length history → sample + 1 = length history →
     insert_delta history sample delta
     = Done (drop 1 history ++ [delta], sample, default [] (history !! 0))) ∧
  (∀ s (iterates : list (list Scalar)) s' (deltas : list (list Scalar)),
     2 ≤ length (X s) → iSample s < length (X s) →
     feed s iterates = Done (s', deltas) →
     length (X s) ≤ length iterates →
     length deltas = length iterates ∧
     X s' = drop (length deltas - length (X s)) deltas ∧
     iSample s' + 1 = length (X s)).
Proof.
  split; [apply shiftHistoryLeft_rotate|]. split; [|split].
  - intros history h' i. rewrite shiftHistoryLeft_rotate. intros [= <-].
    destruct history as [|x xs]; simpl; [repeat split; lia|].
    rewrite drop_0, firstn_O, length_app. simpl.
    split; [lia|]. split; intros Hi.
    + rewrite lookup_app_l by lia. by rewrite Nat.add_1_r.
    + rewrite lookup_app_r by lia.
      by replace (length xs - 0 - length xs) with 0 by lia.
  - intros. by apply insert_delta_full.
  - intros s iterates s' deltas Hn Hs Hfeed Hk.
    apply feed_inserts in Hfeed as [Hlen Hins]. split; [done|].
    destruct (insert_all_window deltas (X s) (iSample s) (take (iSample s + 1) (X s)))
      as (h' & sample' & Hrun & Hh' & Hs' & Hfin); [done|done| |].
    { rewrite length_take.
      replace ((iSample s + 1) `min` length (X s) - length (X s)) with 0 by lia.
      by rewrite drop_0. }
    rewrite Hins in Hrun. injection Hrun as <- <-.
    rewrite length_app, length_take in Hfin.
    rewrite drop_app_ge in Hfin by (rewrite length_take; lia).
    rewrite length_take in Hfin.
    replace ((iSample s + 1) `min` length (X s) + length deltas
             - length (X s) - (iSample s + 1) `min` length (X s))
      with (length deltas - length (X s)) in Hfin by lia.
    assert (Hfull : iSample s' + 1 = length (X s)).
    { apply (f_equal length) in Hfin.
      rewrite length_take, length_drop in Hfin. lia. }
    split; [|done].
    rewrite <- Hfin. rewrite take_ge; [done|lia].
Qed.


(** ** The local size is never read *)

Ltac split_outcomes :=
  repeat (simpl;
          match goal with
          | |- context [if ?b then _ else _] =>
              lazymatch b with
              | context [and_then] => fail
              | _ => destruct b
              end
          | |- context [and_then ?m _] =>
              lazymatch m with
              | and_then _ _ => fail
              | (if _ then _ else _) => fail
              | _ => destruct m
              end
          end);
  try done.

Lemma checkBasis_ignores_nPtDomain s k (n : nat) :
  checkBasis junk (with_nPtDomain n s) k
  = let* r := checkBasis junk s k in Done (r.1, with_nPtDomain n r.2).
Proof. unfold checkBasis. split_outcomes. Qed.

Lemma compute_ignores_nPtDomain s (n : nat) :
  compute (with_nPtDomain n s)
  = let* s' := compute s in Done (with_nPtDomain n s').
Proof.
  unfold compute, remove_projection, projectOntoSubspace. simpl.
  destruct (0 <? iBasis s) eqn:Eb; simpl.
  - destruct (require (mrows (EigenR s) =? length (work s)) ShapeMismatch);
      simpl; [|done].
    destruct (require (mrows (EigenR s) =? length (p s)) ShapeMismatch);
      simpl; [|done].
    destruct (data_loop _ _ _ _ _); simpl; [|done].
    unfold push_delta, delta_of. simpl.
    destruct (if decide _ then _ else _); simpl; [|done].
    destruct (data_loop _ _ _ _ _); simpl; [|done].
    destruct (at_index _ _); simpl; [|done].
    unfold add_correction, updateProjectedSolution. simpl. rewrite Eb.
    split_outcomes.
  - unfold push_delta, delta_of. simpl.
    destruct (if decide _ then _ else _); simpl; [|done].
    destruct (data_loop _ _ _ _ _); simpl; [|done].
    destruct (at_index _ _); simpl; [|done].
    unfold add_correction. simpl. rewrite Eb. split_outcomes.
Qed.

Lemma computeProjectedJacobian_ignores_nPtDomain s z (i o : list Z) (n : nat) :
  computeProjectedJacobian junk (with_nPtDomain n s) z i o
  = let* s' := computeProjectedJacobian junk s z i o in
    Done (with_nPtDomain n s').
Proof.
  unfold computeProjectedJacobian. simpl.
  change (jacobian_turn junk (with_nPtDomain n s) i o)
    with (jacobian_turn junk s i o).
  by destruct (collect _ _).
Qed.

End Properties.

(** * The reference inverse in exact arithmetic

    Over a field the elimination of [gauss_jordan_inverse] returns a left
    inverse of every invertible square matrix. *)

Section Elimination.

Context {Scalar : Type} {ops : ScalarOps Scalar} {field : ExactField ops}.

Lemma scalar_ring :
  ring_theory s_zero s_one s_add s_mul s_sub s_neg (@eq Scalar).
Proof.
  constructor.
  - apply ef_add_zero.
  - apply ef_add_comm.
  - apply ef_add_assoc.
  - apply ef_mul_one.
  - apply ef_mul_comm.
  - apply ef_mul_assoc.
  - apply ef_distr.
  - apply ef_sub.
  - apply ef_add_neg.
Qed.

Add Ring scalars : scalar_ring.

Lemma sum_to_ext (n : nat) (f g : nat → Scalar) :
  (∀ j, j < n → f j = g j) → sum_to n f = sum_to n g.
Proof.
  induction n as [|n IH]; intros H; simpl; [done|].
  rewrite IH by (intros j Hj; apply H; lia). by rewrite (H n) by lia.
Qed.

Lemma sum_to_zero (n : nat) (f : nat → Scalar) :
  (∀ j, j < n → f j = s_zero) → sum_to n f = s_zero.
Proof.
  induction n as [|n IH]; intros H; simpl; [done|].
  rewrite IH by (intros j Hj; apply H; lia). rewrite (H n) by lia. ring.
Qed.

Lemma sum_to_sub (n : nat) (f g : nat → Scalar) :
  sum_to n (λ j, s_sub (f j) (g j)) = s_sub (sum_to n f) (sum_to n g).
Proof. induction n as [|n IH]; simpl; [ring|]. rewrite IH. ring. Qed.

Lemma sum_to_add (n : nat) (f g : nat → Scalar) :
  sum_to n (λ j, s_add (f j) (g j)) = s_add (sum_to n f) (sum_to n g).
Proof. induction n as [|n IH]; simpl; [ring|]. rewrite IH. ring. Qed.

Lemma sum_to_scale (n : nat) (c : Scalar) (f : nat → Scalar) :
  sum_to n (λ j, s_mul c (f j)) = s_mul c (sum_to n f).
Proof. induction n as [|n IH]; simpl; [ring|]. rewrite IH. ring. Qed.

Lemma sum_to_delta (n i : nat) (g : nat → Scalar) :
  sum_to n (λ j, s_mul (if decide (i = j) then s_one else s_zero) (g j))
  = if decide (i < n) then g i else s_zero.
Proof.
  induction n as [|n IH]; simpl.
  - destruct (decide (i < 0)); [lia|done].
  - rewrite IH.
    destruct (decide (i = n)), (decide (i < n)), (decide (i < S n));
      try lia; subst; ring.
Qed.

Lemma sum_to_swap (n m : nat) (f : nat → nat → Scalar) :
  sum_to n (λ i, sum_to m (f i)) = sum_to m (λ j, sum_to n (λ i, f i j)).
Proof.
  induction n as [|n IH]; simpl.
  - symmetry. by apply sum_to_zero.
  - rewrite IH, <- sum_to_add. done.
Qed.

Lemma sum_to_tail (n m : nat) (f : nat → Scalar) :
  m ≤ n → (∀ j, m ≤ j < n → f j = s_zero) → sum_to n f = sum_to m f.
Proof.
  induction n as [|n IH]; intros Hm H.
  - by replace m with 0 by lia.
  - destruct (decide (m = S n)) as [->|]; [done|]. simpl.
    assert (E : sum_to n f = sum_to m f).
    { apply IH; [lia|]. intros j Hj. apply H. lia. }
    rewrite E, (H n) by lia. ring.
Qed.

Lemma foldl_sum_to {A} (g : A → Scalar) (d : A) (l : list A) (a0 : Scalar) :
  foldl (λ a x, s_add a (g x)) a0 l
  = s_add a0 (sum_to (length l) (λ k, g (default d (l !! k)))).
Proof.
  induction l as [|x l IH] using rev_ind.
  - simpl. ring.
  - rewrite foldl_app, length_app. simpl. rewrite Nat.add_1_r. simpl.
    rewrite IH, list_lookup_middle by done. simpl.
    rewrite (sum_to_ext (length l) (λ k, g (default d ((l ++ [x]) !! k)))
                        (λ k, g (default d (l !! k)))).
    + ring.
    + intros j Hj. by rewrite lookup_app_l.
Qed.

Lemma foldl_columns_entry (l : list (list Scalar * Scalar)) (acc : list Scalar)
    (i : nat) (a0 : Scalar) :
  acc !! i = Some a0 → Forall (λ cx, i < length cx.1) l →
  foldl (λ acc cx, vec_add acc (vec_scale cx.2 cx.1)) acc l !! i
  = Some (foldl (λ a cx, s_add a (s_mul cx.2 (default s_zero (cx.1 !! i))))
                a0 l).
Proof.
  revert acc a0.
  induction l as [|[c x] l IH]; intros acc a0 Ha Hl; simpl; [done|].
  apply Forall_cons in Hl as [Hc Hl]. simpl in Hc.
  apply IH; [|done].
  destruct (lookup_lt_is_Some_2 c i Hc) as [ci Hci].
  unfold vec_add, vec_scale. rewrite lookup_zip_with, Ha. simpl.
  rewrite list_lookup_fmap, Hci. done.
Qed.

Lemma mat_vec_length (M : Matrix Scalar) (v : list Scalar) :
  Forall (λ c, length c = mrows M) (mcolumns M) →
  length (mat_vec M v) = mrows M.
Proof.
  unfold mat_vec. generalize (mrows M) as n. intros n Hcols.
  assert (Hgen : ∀ cols (w acc : list Scalar),
            Forall (λ c, length c = n) cols → length acc = n →
            length (foldl (λ acc cx, vec_add acc (vec_scale cx.2 cx.1))
                          acc (zip cols w)) = n).
  { induction cols as [|c cols IH]; intros w acc Hall Hacc; [done|].
    destruct w as [|x w]; [done|]. simpl.
    apply Forall_cons in Hall as [Hc Hall]. apply IH; [done|].
    unfold vec_add, vec_scale. rewrite length_zip_with, length_map. lia. }
  apply Hgen; [done|]. by rewrite length_replicate.
Qed.

Lemma mat_vec_entry (A : Matrix Scalar) (v : list Scalar) (i : nat) :
  Forall (λ c, length c = mrows A) (mcolumns A) →
  i < mrows A → length v = mcols A →
  mat_vec A v !! i
  = Some (sum_to (mcols A)
            (λ k, s_mul (default s_zero (v !! k)) (entry (mcolumns A) k i))).
Proof.
  intros Hcols Hi Hv. unfold mat_vec.
  rewrite (foldl_columns_entry _ _ i s_zero).
  - f_equal.
    rewrite (foldl_sum_to
               (λ cx, s_mul cx.2 (default s_zero (cx.1 !! i))) ([], s_zero)).
    rewrite length_zip_with, Hv. fold (mcols A). rewrite Nat.min_id.
    rewrite ef_add_zero. apply sum_to_ext. intros k Hk.
    rewrite lookup_zip_with. unfold entry.
    destruct (lookup_lt_is_Some_2 (mcolumns A) k Hk) as [c ->].
    destruct (lookup_lt_is_Some_2 v k) as [x ->]; [lia|]. done.
  - by apply lookup_replicate_2.
  - apply Forall_forall. intros [c x] Hin. apply elem_of_zip_l in Hin.
    rewrite Forall_forall in Hcols. simpl. rewrite (Hcols c Hin). done.
Qed.


(** ** Rows of the augmented matrix *)

Lemma entry_at (rows : list (list Scalar)) (i j : nat) (r : list Scalar) :
  rows !! i = Some r → entry rows i j = default s_zero (r !! j).
Proof. intros E. unfold entry. by rewrite E. Qed.

Lemma transpose_entry (n : nat) (cols : list (list Scalar)) (i j : nat) :
  i < n → entry (transpose n cols) i j = entry cols j i.
Proof.
  intros Hi. unfold entry, transpose.
  rewrite list_lookup_fmap, lookup_seq_lt by done. simpl.
  rewrite list_lookup_fmap. by destruct (cols !! j).
Qed.

Lemma augmented_row (M : Matrix Scalar) (i : nat) :
  square M → i < mrows M →
  ∃ r, augmented M !! i = Some r ∧ length r = mrows M + mrows M ∧
       (∀ j, j < mrows M →
             r !! j = Some (entry (mcolumns M) j i)) ∧
       (∀ m, m < mrows M →
             r !! (mrows M + m)
             = Some (if decide (i = m) then s_one else s_zero)).
Proof.
  intros [Hc Hall] Hi. unfold augmented, transpose.
  rewrite lookup_zip_with, !list_lookup_fmap, lookup_seq_lt by done. simpl.
  eexists. split; [reflexivity|].
  assert (La : length (map (λ c : list Scalar, default s_zero (c !! i))
                           (mcolumns M)) = mrows M).
  { by rewrite length_map. }
  split; [|split].
  - rewrite length_app, La, !length_map, length_seq. done.
  - intros j Hj. rewrite lookup_app_l by lia.
    rewrite list_lookup_fmap. unfold entry.
    destruct (lookup_lt_is_Some_2 (mcolumns M) j) as [c ->];
      [unfold mcols in Hc; lia|]. done.
  - intros m Hm. rewrite lookup_app_r by lia. rewrite La.
    replace (mrows M + m - mrows M) with m by lia.
    rewrite !list_lookup_fmap, lookup_seq_lt by done. simpl.
    unfold unit_vector. rewrite list_lookup_fmap, lookup_seq_lt by done.
    done.
Qed.

Lemma augmented_shape (M : Matrix Scalar) :
  square M →
  length (augmented M) = mrows M ∧
  Forall (λ r, length r = mrows M + mrows M) (augmented M).
Proof.
  intros Hsq. pose proof Hsq as [Hc Hall].
  assert (L : length (augmented M) = mrows M).
  { unfold augmented, transpose.
    rewrite length_zip_with, !length_map, length_seq. lia. }
  split; [done|]. apply Forall_lookup. intros i r Hr.
  assert (Hi : i < mrows M) by (apply lookup_lt_Some in Hr; lia).
  destruct (augmented_row M i Hsq Hi) as (r' & E & Hlen & _).
  congruence.
Qed.

Lemma augmented_entry_left (M : Matrix Scalar) (i j : nat) :
  square M → i < mrows M → j < mrows M →
  entry (augmented M) i j = entry (mcolumns M) j i.
Proof.
  intros Hsq Hi Hj. destruct (augmented_row M i Hsq Hi) as (r & E & _ & Hl & _).
  by rewrite (entry_at _ _ _ _ E), (Hl j Hj).
Qed.

Lemma augmented_entry_right (M : Matrix Scalar) (i m : nat) :
  square M → i < mrows M → m < mrows M →
  entry (augmented M) i (mrows M + m)
  = if decide (i = m) then s_one else s_zero.
Proof.
  intros Hsq Hi Hm. destruct (augmented_row M i Hsq Hi) as (r & E & _ & _ & Hr).
  by rewrite (entry_at _ _ _ _ E), (Hr m Hm).
Qed.

(** ** The pivot *)

Lemma pivot_row_spec (rows : list (list Scalar)) (k : nat) :
  k < length rows →
  k ≤ pivot_row k rows < length rows ∧
  (entry rows (pivot_row k rows) k = s_zero →
   ∀ i, k ≤ i < length rows → entry rows i k = s_zero).
Proof.
  intros Hk. unfold pivot_row.
  assert (Hgen : ∀ m, S k + m ≤ length rows →
            let b := foldl (λ best i,
                              if s_gt (s_abs (entry rows i k))
                                      (s_abs (entry rows best k))
                              then i else best) k (seq (S k) m) in
            k ≤ b < S k + m ∧
            (entry rows b k = s_zero →
             ∀ i, k ≤ i < S k + m → entry rows i k = s_zero)).
  { induction m as [|m IH]; intros Hm; cbv zeta in *.
    - simpl. split; [lia|]. intros H0 i Hi. by replace i with k by lia.
    - rewrite seq_S, foldl_app. simpl.
      destruct IH as [Hb Hz]; [lia|].
      set (b := foldl _ k (seq (S k) m)) in *.
      destruct (s_gt (s_abs (entry rows (S (k + m)) k))
                     (s_abs (entry rows b k))) eqn:Egt.
      + split; [lia|]. intros H0. rewrite H0, ef_abs_zero in Egt.
        discriminate.
      + split; [lia|]. intros H0 i Hi. rewrite H0 in Egt.
        destruct (decide (i = S (k + m))) as [->|Hne].
        * by apply ef_abs_pos.
        * apply Hz; [done|lia]. }
  destruct (Hgen (length rows - S k)) as [Hb Hz]; [lia|].
  split; [lia|]. intros H0 i Hi. apply Hz; [done|lia].
Qed.

(** ** One elimination step, entry by entry *)

Lemma eliminate_entry (rows : list (list Scalar)) (n k : nat) :
  length rows = n → Forall (λ r, length r = n + n) rows → k < n →
  (length (eliminate rows k) = n ∧
   Forall (λ r, length r = n + n) (eliminate rows k)) ∧
  ∀ i j, i < n → j < n + n →
    entry (eliminate rows k) i j
    = if decide (i = k)
      then s_div (entry rows (pivot_row k rows) j)
                 (entry rows (pivot_row k rows) k)
      else s_sub (entry rows (if decide (i = pivot_row k rows) then k else i) j)
                 (s_mul (entry rows (if decide (i = pivot_row k rows)
                                     then k else i) k)
                        (s_div (entry rows (pivot_row k rows) j)
                               (entry rows (pivot_row k rows) k))).
Proof.
  intros Hlen Hall Hk.
  destruct (pivot_row_spec rows k) as [Hpr _]; [lia|].
  set (pr := pivot_row k rows) in *.
  destruct (lookup_lt_is_Some_2 rows pr) as [rpr Epr]; [lia|].
  destruct (lookup_lt_is_Some_2 rows k) as [rk0 Ek]; [lia|].
  pose proof (Forall_lookup_1 _ _ _ _ Hall Epr) as Lpr.
  pose proof (Forall_lookup_1 _ _ _ _ Hall Ek) as Lk.
  simpl in Lpr, Lk.
  set (p := entry rows pr k).
  assert (Hp : default s_zero (rpr !! k) = p).
  { unfold p. by rewrite (entry_at _ _ _ _ Epr). }
  unfold eliminate. fold pr. rewrite Epr, Ek. simpl. rewrite Hp.
  set (rk' := map (λ x, s_div x p) rpr).
  set (rows1 := <[pr:=rk0]> (<[k:=rpr]> rows)).
  assert (Lrk' : length rk' = n + n) by (unfold rk'; by rewrite length_map).
  assert (L1 : length rows1 = n) by (unfold rows1; by rewrite !length_insert).
  assert (A1 : Forall (λ r, length r = n + n) rows1).
  { unfold rows1. by repeat apply Forall_insert. }
  assert (Hrow1 : ∀ i, i < n →
            rows1 !! i = rows !! (if decide (i = k) then pr
                                  else if decide (i = pr) then k else i)).
  { intros i Hi. unfold rows1. destruct (decide (i = pr)) as [->|Hne].
    - rewrite list_lookup_insert_eq by (rewrite length_insert; lia).
      destruct (decide (pr = k)) as [E|]; [|done]. congruence.
    - rewrite list_lookup_insert_ne by done.
      destruct (decide (i = k)) as [->|Hne'].
      + rewrite list_lookup_insert_eq by lia. done.
      + by rewrite list_lookup_insert_ne. }
  split; [split|].
  - by rewrite length_imap.
  - apply Forall_lookup. intros i r Hr. rewrite list_lookup_imap in Hr.
    destruct (rows1 !! i) as [row|] eqn:Erow; [|discriminate].
    simpl in Hr. injection Hr as <-.
    destruct (decide (i = k)); [done|].
    rewrite length_zip_with, Lrk'.
    pose proof (Forall_lookup_1 _ _ _ _ A1 Erow) as Lrow. simpl in Lrow. lia.
  - intros i j Hi Hj. unfold entry at 1. rewrite list_lookup_imap.
    rewrite (Hrow1 i Hi).
    destruct (lookup_lt_is_Some_2 rpr j) as [y Ey]; [lia|].
    assert (Hy : entry rows pr j = y).
    { by rewrite (entry_at _ _ _ _ Epr), Ey. }
    assert (Ey' : rk' !! j = Some (s_div y p)).
    { unfold rk'. by rewrite list_lookup_fmap, Ey. }
    destruct (decide (i = k)) as [->|Hik].
    + rewrite Epr. simpl. destruct (decide (k = k)); [|done].
      simpl. by rewrite Ey', Hy.
    + set (t := if decide (i = pr) then k else i).
      assert (Ht : t < n) by (unfold t; destruct (decide (i = pr)); lia).
      destruct (lookup_lt_is_Some_2 rows t) as [row Erow]; [lia|].
      rewrite Erow. simpl. destruct (decide (i = k)); [done|]. simpl.
      pose proof (Forall_lookup_1 _ _ _ _ Hall Erow) as Lrow. simpl in Lrow.
      destruct (lookup_lt_is_Some_2 row j) as [a Ea]; [lia|].
      rewrite lookup_zip_with, Ea, Ey'. simpl.
      rewrite !(entry_at _ _ _ _ Erow), Ea, Hy. done.
Qed.

(** ** An invertible matrix has a trivial kernel *)

Lemma invertible_kernel (M : Matrix Scalar) (v : nat → Scalar) :
  square M → invertible M →
  (∀ i, i < mrows M →
        sum_to (mrows M) (λ j, s_mul (entry (mcolumns M) j i) (v j)) = s_zero) →
  ∀ i, i < mrows M → v i = s_zero.
Proof.
  intros [Hc Hall] (B & [HBc HBall] & HBr & HBM) Hker.
  set (n := mrows M) in *.
  assert (Hent : ∀ i j, i < n → j < n →
            sum_to n (λ k, s_mul (entry (mcolumns M) j k)
                                 (entry (mcolumns B) k i))
            = if decide (i = j) then s_one else s_zero).
  { intros i j Hi Hj. apply (f_equal mcolumns) in HBM. simpl in HBM.
    apply (f_equal (λ l, l !! j)) in HBM.
    rewrite !list_lookup_fmap, lookup_seq_lt in HBM by done.
    destruct (lookup_lt_is_Some_2 (mcolumns M) j) as [cj Ecj];
      [unfold mcols in Hc; lia|].
    rewrite Ecj in HBM. simpl in HBM. injection HBM as HBM.
    apply (f_equal (λ l, l !! i)) in HBM.
    pose proof (Forall_lookup_1 _ _ _ _ Hall Ecj) as Lcj. simpl in Lcj.
    rewrite mat_vec_entry in HBM; [|done|lia|lia].
    unfold unit_vector in HBM.
    rewrite list_lookup_fmap, lookup_seq_lt in HBM by done.
    simpl in HBM. injection HBM as HBM. rewrite <- HBM, HBc, HBr.
    apply sum_to_ext. intros k Hk.
    by rewrite (entry_at _ _ _ _ Ecj). }
  intros i Hi.
  transitivity (sum_to n (λ j, s_mul (if decide (i = j) then s_one else s_zero)
                                     (v j))).
  { rewrite sum_to_delta. destruct (decide (i < n)); [done|lia]. }
  rewrite (sum_to_ext n
             (λ j, s_mul (if decide (i = j) then s_one else s_zero) (v j))
             (λ j, sum_to n (λ k, s_mul (s_mul (entry (mcolumns M) j k)
                                               (entry (mcolumns B) k i))
                                        (v j)))).
  2:{ intros j Hj. rewrite <- (Hent i j Hi Hj).
      rewrite ef_mul_comm, <- sum_to_scale. apply sum_to_ext. intros. ring. }
  rewrite (sum_to_swap n n
             (λ j k, s_mul (s_mul (entry (mcolumns M) j k)
                                  (entry (mcolumns B) k i)) (v j))).
  apply sum_to_zero. intros k Hk.
  rewrite (sum_to_ext n
             (λ j, s_mul (s_mul (entry (mcolumns M) j k)
                                (entry (mcolumns B) k i)) (v j))
             (λ j, s_mul (entry (mcolumns B) k i)
                         (s_mul (entry (mcolumns M) j k) (v j))))
    by (intros; ring).
  rewrite sum_to_scale, (Hker k Hk). ring.
Qed.


(** ** The elimination loop *)

Lemma elimination_invariant (M : Matrix Scalar) :
  square M → invertible M →
  ∀ k, k ≤ mrows M →
    length (foldl eliminate (augmented M) (seq 0 k)) = mrows M ∧
    Forall (λ r, length r = mrows M + mrows M)
           (foldl eliminate (augmented M) (seq 0 k)) ∧
    (∀ i j, i < mrows M → j < mrows M →
       entry (foldl eliminate (augmented M) (seq 0 k)) i j
       = sum_to (mrows M)
           (λ m, s_mul (entry (foldl eliminate (augmented M) (seq 0 k))
                              i (mrows M + m))
                       (entry (mcolumns M) j m))) ∧
    (∀ v : nat → Scalar,
       (∀ i, i < mrows M →
          sum_to (mrows M)
            (λ j, s_mul (entry (foldl eliminate (augmented M) (seq 0 k)) i j)
                        (v j)) = s_zero) →
       ∀ i, i < mrows M →
         sum_to (mrows M) (λ j, s_mul (entry (mcolumns M) j i) (v j))
         = s_zero) ∧
    (∀ i j, i < mrows M → j < k →
       entry (foldl eliminate (augmented M) (seq 0 k)) i j
       = if decide (i = j) then s_one else s_zero).
Proof.
  intros Hsq Hinv. set (n := mrows M).
  induction k as [|k IH]; intros Hk.
  - simpl. destruct (augmented_shape M Hsq) as [L A].
    split; [done|]. split; [done|]. split; [|split].
    + intros i j Hi Hj. rewrite augmented_entry_left by done.
      rewrite (sum_to_ext n _
                 (λ m, s_mul (if decide (i = m) then s_one else s_zero)
                             (entry (mcolumns M) j m))).
      * rewrite sum_to_delta. destruct (decide (i < n)); [done|lia].
      * intros m Hm. by rewrite augmented_entry_right.
    + intros v Hv i Hi. rewrite <- (Hv i Hi). apply sum_to_ext.
      intros j Hj. by rewrite augmented_entry_left.
    + intros i j Hi Hj. lia.
  - rewrite seq_S, foldl_app. simpl.
    destruct IH as (L & A & I2 & I3 & I4); [lia|].
    set (rows := foldl eliminate (augmented M) (seq 0 k)) in *.
    destruct (eliminate_entry rows n k L A) as [[L' A'] Hent]; [lia|].
    destruct (pivot_row_spec rows k) as [Hprb Hzero]; [lia|].
    set (pr := pivot_row k rows) in *.
    set (p := entry rows pr k) in *.
    set (c := s_div s_one p).
    assert (Hp : p ≠ s_zero).
    { intros Hp0. specialize (Hzero Hp0).
      set (v := λ j, if decide (j < k) then s_neg (entry rows j k)
                     else if decide (j = k) then s_one else s_zero).
      assert (Hv : ∀ i, i < n →
                sum_to n (λ j, s_mul (entry rows i j) (v j)) = s_zero).
      { intros i Hi.
        rewrite (sum_to_tail n (S k)); [|lia|].
        2:{ intros j Hj. unfold v.
            destruct (decide (j < k)); [lia|].
            destruct (decide (j = k)); [lia|]. ring. }
        simpl.
        rewrite (sum_to_ext k _
                   (λ j, s_mul (if decide (i = j) then s_one else s_zero)
                               (s_neg (entry rows j k)))).
        2:{ intros j Hj. rewrite (I4 i j Hi Hj). unfold v.
            destruct (decide (j < k)); [done|lia]. }
        rewrite sum_to_delta. unfold v.
        destruct (decide (k < k)); [lia|].
        destruct (decide (k = k)); [|done].
        destruct (decide (i < k)).
        - ring.
        - rewrite (Hzero i) by lia. ring. }
      pose proof (invertible_kernel M v Hsq Hinv (I3 v Hv) k) as Hvk.
      unfold v in Hvk.
      destruct (decide (k < k)); [lia|].
      destruct (decide (k = k)); [|done].
      apply ef_one_ne_zero, Hvk. lia. }
    assert (Hpc : s_mul p c = s_one) by (by apply ef_div_same).
    assert (Hent' : ∀ i j, i < n → j < n + n →
              entry (eliminate rows k) i j
              = if decide (i = k) then s_mul (entry rows pr j) c
                else s_sub (entry rows (if decide (i = pr) then k else i) j)
                           (s_mul (entry rows (if decide (i = pr)
                                               then k else i) k)
                                  (s_mul (entry rows pr j) c))).
    { intros i j Hi Hj. rewrite (Hent i j Hi Hj).
      by rewrite (ef_div (entry rows pr j) p). }
    clear Hent.
    split; [done|]. split; [done|]. split; [|split].
    + intros i j Hi Hj. rewrite (Hent' i j) by lia.
      destruct (decide (i = k)) as [->|Hik].
      * rewrite (I2 pr j) by lia.
        rewrite (sum_to_ext n
                   (λ m, s_mul (entry (eliminate rows k) k (n + m))
                               (entry (mcolumns M) j m))
                   (λ m, s_mul c (s_mul (entry rows pr (n + m))
                                        (entry (mcolumns M) j m)))).
        2:{ intros m Hm. rewrite (Hent' k (n + m)) by lia.
            destruct (decide (k = k)); [|done]. ring. }
        rewrite sum_to_scale. ring.
      * set (t := if decide (i = pr) then k else i).
        assert (Ht : t < n) by (unfold t; destruct (decide (i = pr)); lia).
        rewrite (I2 t j), (I2 pr j) by lia.
        rewrite (sum_to_ext n
                   (λ m, s_mul (entry (eliminate rows k) i (n + m))
                               (entry (mcolumns M) j m))
                   (λ m, s_sub
                           (s_mul (entry rows t (n + m))
                                  (entry (mcolumns M) j m))
                           (s_mul (s_mul (entry rows t k) c)
                                  (s_mul (entry rows pr (n + m))
                                         (entry (mcolumns M) j m))))).
        2:{ intros m Hm. rewrite (Hent' i (n + m)) by lia.
            destruct (decide (i = k)); [done|]. fold t. ring. }
        rewrite sum_to_sub, sum_to_scale. ring.
    + intros v Hv'. apply (I3 v).
      assert (Hlin : ∀ i, i < n →
                sum_to n (λ j, s_mul (entry (eliminate rows k) i j) (v j))
                = if decide (i = k)
                  then s_mul c (sum_to n (λ j, s_mul (entry rows pr j) (v j)))
                  else s_sub
                         (sum_to n
                            (λ j, s_mul (entry rows (if decide (i = pr)
                                                     then k else i) j) (v j)))
                         (s_mul (s_mul (entry rows (if decide (i = pr)
                                                    then k else i) k) c)
                                (sum_to n (λ j, s_mul (entry rows pr j)
                                                      (v j))))).
      { intros i Hi. destruct (decide (i = k)) as [->|Hik].
        - rewrite <- sum_to_scale. apply sum_to_ext. intros j Hj.
          rewrite (Hent' k j) by lia.
          destruct (decide (k = k)); [|done]. ring.
        - rewrite <- sum_to_scale, <- sum_to_sub. apply sum_to_ext.
          intros j Hj. rewrite (Hent' i j) by lia.
          destruct (decide (i = k)); [done|]. ring. }
      assert (Hpr0 : sum_to n (λ j, s_mul (entry rows pr j) (v j)) = s_zero).
      { pose proof (Hv' k ltac:(lia)) as Hk0. rewrite (Hlin k) in Hk0 by lia.
        destruct (decide (k = k)); [|done].
        transitivity (s_mul (s_mul p c)
                            (sum_to n (λ j, s_mul (entry rows pr j) (v j)))).
        - rewrite Hpc. ring.
        - rewrite <- ef_mul_assoc, Hk0. ring. }
      intros t Ht. destruct (decide (t = pr)) as [->|Hne]; [done|].
      set (i := if decide (t = k) then pr else t).
      assert (Hi : i < n) by (unfold i; destruct (decide (t = k)); lia).
      assert (Hik : i ≠ k).
      { unfold i. destruct (decide (t = k)); [congruence|done]. }
      assert (Hit : (if decide (i = pr) then k else i) = t).
      { unfold i. destruct (decide (t = k)) as [->|].
        - destruct (decide (pr = pr)); done.
        - destruct (decide (t = pr)); done. }
      pose proof (Hv' i Hi) as H0. rewrite (Hlin i Hi) in H0.
      destruct (decide (i = k)); [done|].
      rewrite Hit, Hpr0 in H0. rewrite <- H0. ring.
    + intros i j Hi Hj. rewrite (Hent' i j) by lia.
      destruct (decide (i = k)) as [->|Hik].
      * destruct (decide (j = k)) as [->|Hjk].
        -- destruct (decide (k = k)); [|done]. exact Hpc.
        -- rewrite (I4 pr j) by lia.
           destruct (decide (pr = j)); [lia|].
           destruct (decide (k = j)); [lia|]. ring.
      * set (t := if decide (i = pr) then k else i).
        assert (Ht : t < n) by (unfold t; destruct (decide (i = pr)); lia).
        destruct (decide (j = k)) as [->|Hjk].
        -- destruct (decide (i = k)); [done|]. fold p.
           transitivity (s_sub (entry rows t k)
                               (s_mul (entry rows t k) (s_mul p c))); [done|].
           rewrite Hpc. ring.
        -- rewrite (I4 pr j), (I4 t j) by lia.
           destruct (decide (pr = j)); [lia|].
           assert (Hd : (if decide (t = j) then s_one else s_zero)
                        = if decide (i = j) then s_one else s_zero).
           { unfold t. destruct (decide (i = pr)) as [->|]; [|done].
             destruct (decide (k = j)); [lia|].
             destruct (decide (pr = j)); [lia|done]. }
           rewrite Hd. ring.
Qed.

(** ** The reference inverse is exact over a field *)

Lemma gauss_jordan_inverse_exact (M : Matrix Scalar) :
  square M → invertible M →
  mat_mul (gauss_jordan_inverse M) M = mat_identity (mrows M).
Proof.
  intros Hsq Hinv. pose proof Hsq as [Hc Hall].
  destruct (elimination_invariant M Hsq Hinv (mrows M))
    as (L & A & I2 & _ & I4); [lia|].
  unfold gauss_jordan_inverse. fold (augmented M).
  set (n := mrows M) in *.
  set (rows := foldl eliminate (augmented M) (seq 0 n)) in *.
  set (N := {| mrows := n; mcolumns := transpose n (map (drop n) rows) |}).
  assert (HNall : Forall (λ c, length c = mrows N) (mcolumns N)).
  { simpl. apply Forall_lookup. intros i r Hr. unfold transpose in Hr.
    rewrite list_lookup_fmap in Hr.
    destruct (seq 0 n !! i); [|discriminate]. simpl in Hr.
    injection Hr as <-. by rewrite !length_map. }
  assert (HNc : mcols N = n).
  { unfold mcols, N, transpose. simpl. by rewrite length_map, length_seq. }
  assert (HNe : ∀ k i, k < n → i < n →
            entry (mcolumns N) k i = entry rows i (n + k)).
  { intros k i Hk Hi. simpl. rewrite transpose_entry by done.
    unfold entry. rewrite list_lookup_fmap.
    destruct (rows !! i) as [r|]; [|done]. simpl. by rewrite lookup_drop. }
  unfold mat_mul, mat_identity. simpl. f_equal.
  apply (list_eq_same_length _ _ n).
  - by rewrite length_map, length_seq.
  - rewrite length_map. done.
  - intros j x y Hj Hx Hy.
    rewrite list_lookup_fmap in Hx.
    destruct (mcolumns M !! j) as [cj|] eqn:Ecj; [|discriminate].
    simpl in Hx. injection Hx as <-.
    rewrite list_lookup_fmap, lookup_seq_lt in Hy by done.
    simpl in Hy. injection Hy as <-.
    pose proof (Forall_lookup_1 _ _ _ _ Hall Ecj) as Lcj. simpl in Lcj.
    apply (list_eq_same_length _ _ n).
    + unfold unit_vector. by rewrite length_map, length_seq.
    + by rewrite mat_vec_length.
    + intros i x y Hi Hx Hy.
      rewrite mat_vec_entry in Hx; [|done|done|lia].
      injection Hx as <-.
      unfold unit_vector in Hy.
      rewrite list_lookup_fmap, lookup_seq_lt in Hy by done.
      simpl in Hy. injection Hy as <-.
      rewrite HNc. rewrite <- (I4 i j) by done. rewrite (I2 i j) by done.
      apply sum_to_ext. intros k Hk. rewrite HNe by done.
      rewrite (entry_at _ _ _ _ Ecj). ring.
Qed.

Lemma reference_inverse_exact : DenseInverseExact reference_library.
Proof. split. intros M. apply gauss_jordan_inverse_exact. Qed.

End Elimination.

(** * The class at IEEE doubles *)

Ltac configured_by_evaluation :=
  split; vm_compute; repeat constructor.

(** Adding [0.0] returns the operand, unless the operand is [-0.0]. *)
Lemma double_add_zero (x : float) : x ≠ (-0)%float → (x + 0)%float = x.
Proof.
  intros Hx. apply Prim2SF_inj. rewrite add_spec.
  change (Prim2SF 0) with (S754_zero false).
  destruct (Prim2SF x) as [[|]| | |] eqn:E; try reflexivity.
  exfalso. apply Hx. apply Prim2SF_inj. by rewrite E.
Qed.

Lemma double_zeros_differ : 0%float ≠ (-0)%float.
Proof.
  intros E. apply (f_equal (λ x, (1 / x <? 0)%float)) in E.
  vm_compute in E. discriminate.
Qed.

(** C1, as amended: on a configured object with no active basis vector,
    [compute] completes, leaves [p] the zero vector of the solution size and
    returns the stored iterate with [0.0] added to every entry: each entry
    other than a negative zero comes back as it was, a negative zero comes
    back as a positive zero. *)
Theorem compute_empty_basis_double (nsample nbasis npt nvar : nat)
    (s : CNewtonUpdateOnSubspace float) :
  configured nsample nbasis npt nvar s → iBasis s = 0 →
  ∃ s', compute s = Done s' ∧
        p s' = replicate (npt * nvar) 0%float ∧
        length (FPresult s') = length (work s) ∧
        ∀ i x, work s !! i = Some x →
               FPresult s' !! i = Some (x + 0)%float ∧
               (x ≠ (-0)%float → FPresult s' !! i = Some x) ∧
               (x = (-0)%float → FPresult s' !! i = Some 0%float).
Proof.
  intros C H0.
  destruct (compute_empty_basis _ _ _ _ s C H0) as (s' & Hrun & Hout & Hp & _).
  exists s'. split; [done|]. split; [done|]. rewrite Hout.
  split; [by rewrite length_map|].
  intros i x Hx. rewrite list_lookup_fmap, Hx. simpl.
  split; [done|]. split.
  - intros Hnz. f_equal. by apply double_add_zero.
  - by intros ->.
Qed.

Lemma compute_empty_basis_double_witness :
  configured 2 1 2 1 (stored_object [1.5%float; (-2.25)%float]) ∧
  iBasis (stored_object [1.5%float; (-2.25)%float]) = 0 ∧
  ∃ s', compute (stored_object [1.5%float; (-2.25)%float]) = Done s' ∧
        p s' = replicate (2 * 1) 0%float ∧
        length (FPresult s')
        = length (work (stored_object [1.5%float; (-2.25)%float])) ∧
        ∀ i x, work (stored_object [1.5%float; (-2.25)%float]) !! i = Some x →
               FPresult s' !! i = Some (x + 0)%float ∧
               (x ≠ (-0)%float → FPresult s' !! i = Some x) ∧
               (x = (-0)%float → FPresult s' !! i = Some 0%float).
Proof.
  assert (C : configured 2 1 2 1 (stored_object [1.5%float; (-2.25)%float]))
    by configured_by_evaluation.
  split; [exact C|]. split; [reflexivity|].
  exact (compute_empty_basis_double 2 1 2 1 _ C eq_refl).
Defined.

(** A stored negative zero is not what [compute] returns. *)
Lemma negative_zero_comes_back_positive :
  configured 2 1 2 1 (stored_object [1%float; (-0)%float]) ∧
  iBasis (stored_object [1%float; (-0)%float]) = 0 ∧
  ∃ s', compute (stored_object [1%float; (-0)%float]) = Done s' ∧
        FPresult s' = [1%float; 0%float] ∧
        FPresult s' ≠ FPresult (stored_object [1%float; (-0)%float]).
Proof.
  split; [configured_by_evaluation|]. split; [reflexivity|].
  eexists. split; [vm_compute; reflexivity|]. split; [reflexivity|].
  intros E. apply (f_equal (λ l, default 1%float (l !! 1))) in E.
  by apply double_zeros_differ.
Qed.

(** ** The reference library meets the shape contract *)

Lemma householder_steps_length {Scalar : Type} {ops : ScalarOps Scalar}
    (n k : nat) (cols : list (list Scalar)) :
  length (householder_steps n k cols) = n `min` length cols.
Proof.
  revert k cols. induction n as [|n IH]; intros k [|c rest]; simpl; try done.
  by rewrite IH, length_map.
Qed.

Lemma reference_library_shape {Scalar : Type} {ops : ScalarOps Scalar} :
  DenseLibraryShape (reference_library (Scalar := Scalar)).
Proof.
  split. intros M. simpl.
  by rewrite !length_fmap, householder_steps_length.
Qed.

(** ** The two-sample scenarios *)

(** With one point and one variable the window matrix is [1 × 2]; its factor
    has a single diagonal entry and the quotient loop reads a second one. *)
Lemma one_point_scenario_reads_past_diagonal :
  one_point_object = Done one_point ∧
  X one_point = [[1%float]; [0x1.47ae147ae147bp-7%float]] ∧
  qr_diagonal {| mrows := 1; mcolumns := X one_point |} = [1%float] ∧
  checkBasis 0%float one_point 50%float = Fault (DiagonalIndex 1 1) ∧
  checkBasis 0%float one_point 500%float = Fault (DiagonalIndex 1 1) ∧
  ¬ ∃ s', checkBasis 0%float one_point 50%float = Done (true, s').
Proof.
  repeat split; try (vm_compute; reflexivity).
  intros [s' E]. vm_compute in E. discriminate.
Qed.

(** C2, as amended: with [nsample = 2], [nbasis = 1], one variable and two
    grid points, once the window holds the deltas [(1, 0)] and [(0, 0.01)]
    (the object sized by [resize] and fed the iterates [(1, 0)] and
    [(1, 0.01)]) the factor has the diagonal [(1, 0.01)] and the first
    Krylov quotient is 100; [checkBasis] with threshold 50 returns true and
    raises the active count to 1, with threshold 500 it returns false and
    leaves it at 0. *)
Theorem two_point_scenario_quotient :
  resize 0%float default_object 2 1 2 1 0 = Done fresh_two_point ∧
  perform_all 0%float fresh_two_point filling_calls = Done two_point ∧
  X two_point = [[1%float; 0%float]; [0%float; 0x1.47ae147ae147bp-7%float]] ∧
  qr_diagonal {| mrows := 2; mcolumns := X two_point |}
  = [1%float; 0x1.47ae147ae147bp-7%float] ∧
  krylov_quotients (qr_diagonal {| mrows := 2; mcolumns := X two_point |}) 1
  = Done [100%float] ∧
  iBasis two_point = 0 ∧
  (let* r := checkBasis 0%float two_point 50%float in Done (r.1, iBasis r.2))
  = Done (true, 1) ∧
  (let* r := checkBasis 0%float two_point 500%float in Done (r.1, iBasis r.2))
  = Done (false, 0).
Proof. repeat apply conj; vm_compute; reflexivity. Qed.

(** ** reset *)

Lemma reset_fields {Scalar : Type} {ops : ScalarOps Scalar}
    (s s' : CNewtonUpdateOnSubspace Scalar) :
  reset s = Done s' →
  iSample s' = 0 ∧ iBasis s' = 0 ∧ X s' !! 0 = X s !! iSample s ∧
  BasisSize_n s' = BasisSize_n s ∧ EigenR s' = EigenR s ∧ pn_R s' = pn_R s.
Proof.
  unfold reset, swap_slots. intros Hr. peel Hr. injection Hr as <-.
  peel E. injection E as <-. simpl.
  apply at_index_done in E0, E1. repeat split; try done.
  rewrite E1. destruct (decide (iSample s = 0)) as [E2|Hne].
  - rewrite E2 in *. rewrite list_lookup_insert_eq; [congruence|].
    rewrite length_insert. by apply lookup_lt_Some in E0.
  - rewrite list_lookup_insert_ne by done.
    apply list_lookup_insert_eq. by apply lookup_lt_Some in E0.
Qed.

(** C3 at a reachable object: after the session [grown_session] (window
    filled, basis grown to one vector, Newton operator formed, one iterate
    corrected) [reset] zeroes the sample index and the active count and
    keeps the last sample in slot 0, but the basis size recorded by
    [updateProjectedSolution] stays 1. *)
Theorem reset_leaves_BasisSize_n :
  ∃ s s', resize 0%float default_object 2 1 2 1 0 = Done fresh_two_point ∧
          grown_session = Done s ∧ reset s = Done s' ∧
          iBasis s = 1 ∧ BasisSize_n s = 1 ∧
          iSample s' = 0 ∧ iBasis s' = 0 ∧ X s' !! 0 = X s !! iSample s ∧
          BasisSize_n s' = 1 ∧ mcols (EigenR s') = 1.
Proof.
  do 2 eexists. split; [vm_compute; reflexivity|].
  split; [vm_compute; reflexivity|].
  split; [vm_compute; reflexivity|]. repeat split.
Qed.

(** After [reset] and a second growth to the same size, the first Newton
    step starts from the coordinate kept from the discarded basis: the
    corrected iterate is [(2, 6)], where an object whose recorded basis size
    had been cleared returns [(2, 3)]. *)
Lemma stale_BasisSize_n_changes_the_correction :
  (let* s := grown_session in
   let* s1 := reset s in
   let* s2 := perform_all 0%float s1 regrowth_calls in
   Done (FPresult s2, pn_R s2))
  = Done ([2%float; 6%float], [2%float]) ∧
  (let* s := grown_session in
   let* s1 := reset s in
   let* s2 := perform_all 0%float (clear_BasisSize_n s1) regrowth_calls in
   Done (FPresult s2, pn_R s2))
  = Done ([2%float; 3%float], [3%float]).
Proof. split; vm_compute; reflexivity. Qed.

(** ** The Newton operator *)

(** ** The rationals are an exact field *)

Lemma rational_abs_zero : Qcabs.Qcabs (rational 0 1) = rational 0 1.
Proof. apply Qcabs.Qcabs_pos, Qcanon.Qcle_refl. Qed.

Lemma rational_field : ExactField rational_ops.
Proof.
  split.
  - apply Qcanon.Qcplus_0_l.
  - apply Qcanon.Qcplus_comm.
  - apply Qcanon.Qcplus_assoc.
  - apply Qcanon.Qcmult_1_l.
  - apply Qcanon.Qcmult_comm.
  - apply Qcanon.Qcmult_assoc.
  - apply Qcanon.Qcmult_plus_distr_l.
  - done.
  - apply Qcanon.Qcplus_opp_r.
  - intros x y.
    change (Qcanon.Qcmult x (Qcanon.Qcinv y)
            = Qcanon.Qcmult x (Qcanon.Qcmult (rational 1 1) (Qcanon.Qcinv y))).
    f_equal. symmetry. apply Qcanon.Qcmult_1_l.
  - intros x Hx.
    change (Qcanon.Qcmult x (Qcanon.Qcmult (rational 1 1) (Qcanon.Qcinv x))
            = rational 1 1).
    etransitivity; [|apply (Qcanon.Qcmult_inv_r x Hx)].
    f_equal. apply Qcanon.Qcmult_1_l.
  - apply Qcanon.Q_apart_0_1.
  - intros y.
    change (negb (QArith_base.Qle_bool
                    (Qcanon.this (Qcabs.Qcabs (rational 0 1)))
                    (Qcanon.this (Qcabs.Qcabs y))) = false).
    rewrite rational_abs_zero.
    apply negb_false_iff, QArith_base.Qle_bool_iff.
    apply (Qcabs.Qcabs_nonneg y).
  - intros x Hx.
    change (negb (QArith_base.Qle_bool
                    (Qcanon.this (Qcabs.Qcabs x))
                    (Qcanon.this (Qcabs.Qcabs (rational 0 1)))) = false) in Hx.
    rewrite rational_abs_zero in Hx.
    apply negb_false_iff, QArith_base.Qle_bool_iff in Hx.
    apply Qcabs.Qcabs_null, Qcanon.Qcle_antisym; [exact Hx|].
    apply Qcabs.Qcabs_nonneg.
Qed.

Lemma list_eqb_eq {A} (eqb : A → A → bool) (l k : list A) :
  (∀ x y, eqb x y = true → x = y) → list_eqb eqb l k = true → l = k.
Proof.
  intros Heq. revert k. induction l as [|x l IH]; intros [|y k] H;
    simpl in H; try done.
  apply andb_prop in H as [Hx Hl]. f_equal; [by apply Heq|by apply IH].
Qed.

Lemma rational_matrix_eqb_eq (A B : Matrix Qcanon.Qc) :
  rational_matrix_eqb A B = true → A = B.
Proof.
  destruct A as [ra ca], B as [rb cb]. unfold rational_matrix_eqb. simpl.
  intros H. apply andb_prop in H as [Hr Hc]. apply Nat.eqb_eq in Hr.
  f_equal; [done|]. revert Hc. apply list_eqb_eq. intros l k.
  apply list_eqb_eq. intros x y Hxy.
  apply Qcanon.Qc_is_canon. by apply QArith_base.Qeq_bool_iff.
Qed.



(** ** Halo entries *)

(** C5 at two objects configured with one owned point out of two: their
    windows agree on the owned point and differ at the halo point only, yet
    [checkBasis] grows the basis for one and not for the other. The inner
    products run over the whole buffers, nothing is reduced across
    processes, and the local size [nPtDomain] has no influence on
    [checkBasis], [compute] or [computeProjectedJacobian]. *)
Theorem halo_entries_decide_growth :
  (∀ (s : CNewtonUpdateOnSubspace float) (k : float) (n : nat),
     checkBasis 0%float (with_nPtDomain n s) k
     = let* r := checkBasis 0%float s k in Done (r.1, with_nPtDomain n r.2)) ∧
  (∀ (s : CNewtonUpdateOnSubspace float) (n : nat),
     compute (with_nPtDomain n s)
     = let* s' := compute s in Done (with_nPtDomain n s')) ∧
  (∀ (s : CNewtonUpdateOnSubspace float) (z : nat) (i o : list Z) (n : nat),
     computeProjectedJacobian 0%float (with_nPtDomain n s) z i o
     = let* s' := computeProjectedJacobian 0%float s z i o in
       Done (with_nPtDomain n s')) ∧
  (let* s := halo_object 0x1.47ae147ae147bp-7%float in Done (nPtDomain s, X s))
  = Done (1, [[1%float; 0%float]; [0%float; 0x1.47ae147ae147bp-7%float]]) ∧
  (let* s := halo_object 1%float in Done (nPtDomain s, X s))
  = Done (1, [[1%float; 0%float]; [0%float; 1%float]]) ∧
  (let* s := halo_object 0x1.47ae147ae147bp-7%float in
   let* r := checkBasis 0%float s 50%float in Done (r.1, iBasis r.2))
  = Done (true, 1) ∧
  (let* s := halo_object 1%float in
   let* r := checkBasis 0%float s 50%float in Done (r.1, iBasis r.2))
  = Done (false, 0).
Proof.
  split; [intros; apply checkBasis_ignores_nPtDomain|].
  split; [intros; apply compute_ignores_nPtDomain|].
  split; [intros; apply computeProjectedJacobian_ignores_nPtDomain|].
  repeat split; vm_compute; reflexivity.
Qed.

(** ** Degenerate ratios *)



(** ** Witnesses on the two-point object *)

Lemma basis_count_monotone_bounded_witness :
  (checkBasis 0%float two_point 50%float = Done two_point_checked ∧
   two_point_checked.1 = true ∧
   iBasis two_point_checked.2 = iBasis two_point + 1 ∧
   length (X two_point) ≤ iSample two_point + 1 ∧
   iBasis two_point < size two_point) ∧
  (compute (stored_object [1%float; 0%float])
   = Done (unwrap (compute (stored_object [1%float; 0%float])) default_object) ∧
   iBasis (unwrap (compute (stored_object [1%float; 0%float])) default_object)
   = iBasis (stored_object [1%float; 0%float])) ∧
  (perform_all 0%float fresh_two_point growth_calls = Done grown ∧
   iBasis fresh_two_point ≤ size fresh_two_point ∧
   iBasis fresh_two_point ≤ iBasis grown ∧
   iBasis grown ≤ iBasis fresh_two_point + checkBasis_calls growth_calls ∧
   iBasis grown ≤ size grown ∧ size grown = size fresh_two_point).
Proof.
  pose proof (basis_count_monotone_bounded (tape := three_quarters) 0%float)
    as (Hcheck & Hcompute & Hrun).
  split; [|split].
  - assert (E : checkBasis 0%float two_point 50%float = Done two_point_checked)
      by (vm_compute; reflexivity).
    split; [exact E|]. split; [reflexivity|].
    destruct (Hcheck two_point 50%float true (two_point_checked.2) E)
      as [Hcount Hwhen].
    split; [exact Hcount|]. exact (Hwhen eq_refl).
  - assert (E : compute (stored_object [1%float; 0%float])
                = Done (unwrap (compute (stored_object [1%float; 0%float]))
                               default_object))
      by (vm_compute; reflexivity).
    split; [exact E|]. exact (Hcompute _ _ E).
  - assert (E : perform_all 0%float fresh_two_point growth_calls = Done grown)
      by (vm_compute; reflexivity).
    assert (Hcap : iBasis fresh_two_point ≤ size fresh_two_point)
      by (vm_compute; lia).
    split; [exact E|]. split; [exact Hcap|].
    exact (Hrun fresh_two_point growth_calls grown E Hcap).
Defined.

Lemma history_window_is_fifo_witness :
  shiftHistoryLeft [[1%float]; [2%float]; [3%float]]
  = Done [[2%float]; [3%float]; [1%float]] ∧
  insert_delta [[1%float]; [2%float]] 1 [3%float]
  = Done ([[2%float]; [3%float]], 1, [1%float]) ∧
  2 ≤ length (X fresh_two_point) ∧
  iSample fresh_two_point < length (X fresh_two_point) ∧
  feed fresh_two_point three_iterates = Done (fed.1, fed.2) ∧
  length (X fresh_two_point) ≤ length three_iterates ∧
  fed.2 = [[1%float; 0%float]; [0%float; 2%float]; [3%float; 0%float]] ∧
  length fed.2 = length three_iterates ∧
  X fed.1 = drop (length fed.2 - length (X fresh_two_point)) fed.2 ∧
  iSample fed.1 + 1 = length (X fresh_two_point).
Proof.
  pose proof (history_window_is_fifo (Scalar := float))
    as (Hrot & _ & Hfull & Hfeed).
  split; [exact (Hrot [[1%float]; [2%float]; [3%float]])|].
  split; [exact (Hfull [[1%float]; [2%float]] 1 [3%float]
                       ltac:(simpl; lia) eq_refl)|].
  assert (Hn : 2 ≤ length (X fresh_two_point)) by (vm_compute; lia).
  assert (Hs : iSample fresh_two_point < length (X fresh_two_point))
    by (vm_compute; lia).
  assert (E : feed fresh_two_point three_iterates = Done (fed.1, fed.2))
    by (vm_compute; reflexivity).
  assert (Hk : length (X fresh_two_point) ≤ length three_iterates)
    by (vm_compute; lia).
  split; [exact Hn|]. split; [exact Hs|]. split; [exact E|].
  split; [exact Hk|]. split; [vm_compute; reflexivity|].
  exact (Hfeed fresh_two_point three_iterates fed.1 fed.2 Hn Hs E Hk).
Defined.

Lemma resize_writes_first_basis_slot_witness :
  0 ≤ 2 ∧ 2 ≤ 2 ∧
  resize 0%float default_object 2 0 2 1 0 = Fault (VectorIndex 0 0) ∧
  ∃ s', resize 0%float default_object 2 1 2 1 0 = Done s' ∧
        configured 2 1 2 1 s' ∧ size s' = 1 ∧ iBasis s' = 0 ∧ iSample s' = 0.
Proof.
  assert (H1 : 0 ≤ 2) by lia. assert (H2 : 2 ≤ 2) by lia.
  split; [exact H1|]. split; [exact H2|].
  destruct (resize_writes_first_basis_slot 0%float default_object 2 2 1 0 H1 H2)
    as [Hzero Hpos].
  split; [exact Hzero|]. exact (Hpos 1 ltac:(lia)).
Defined.

Lemma checkBasis_diagonal_reads_witness :
  (configured 2 1 1 1 one_point ∧ iSample one_point + 1 = 2 ∧
   iBasis one_point < 1 ∧ 1 * 1 < 2 ∧
   length (qr_diagonal {| mrows := 1 * 1; mcolumns := X one_point |}) = 1 * 1 ∧
   checkBasis 0%float one_point 50%float
   = Fault (DiagonalIndex (1 `max` (1 * 1)) (1 * 1))) ∧
  (configured 2 1 2 1 two_point ∧ iSample two_point + 1 = 2 ∧
   iBasis two_point < 1 ∧ 2 ≤ 2 * 1 ∧
   length (qr_diagonal {| mrows := 2 * 1; mcolumns := X two_point |}) = 2 ∧
   krylov_quotients
     (qr_diagonal {| mrows := 2 * 1; mcolumns := X two_point |}) (2 - 1)
   = Done (map (quotient_at
                  (qr_diagonal {| mrows := 2 * 1; mcolumns := X two_point |}))
               (seq 0 (2 - 1))) ∧
   ∃ r, checkBasis 0%float two_point 50%float = Done r).
Proof.
  split.
  - assert (C : configured 2 1 1 1 one_point) by configured_by_evaluation.
    assert (Hs : iBasis one_point < 1) by (vm_compute; lia).
    split; [exact C|]. split; [reflexivity|]. split; [exact Hs|].
    split; [lia|].
    exact (proj1 (checkBasis_diagonal_reads 0%float
                    (shape := reference_library_shape)
                    2 1 1 1 one_point 50%float C eq_refl Hs)
                 ltac:(lia)).
  - assert (C : configured 2 1 2 1 two_point) by configured_by_evaluation.
    assert (Hs : iBasis two_point < 1) by (vm_compute; lia).
    split; [exact C|]. split; [reflexivity|]. split; [exact Hs|].
    split; [lia|].
    exact (proj2 (checkBasis_diagonal_reads 0%float
                    (shape := reference_library_shape)
                    2 1 2 1 two_point 50%float C eq_refl Hs)
                 ltac:(lia)).
Defined.
